(** * Hologlyph: the .glyf container codec and the player's frame clock

    A shallow embedding of [hologlyph.js]: the HSBA pixel codec, the 28-byte
    header builder and parser, the run-length codec, whole-file compression,
    the player's tick loop and the per-voxel pass of the two renderers.

    Conventions.
    - A [Uint8Array] is a [list byte]; reading [a[i]] is stdpp's [a !! i],
      whose [None] is JavaScript's [undefined].
    - Integer-valued JavaScript numbers are [Z] (header fields, frame
      numbers) or [nat] (array positions and lengths); the other numbers
      (colour components, timestamps in milliseconds, coordinates) are exact
      rationals [Q]. The source computes them in double precision, which is
      exact on integers of magnitude below 2^53 (bytes, whole percentages,
      whole-millisecond timestamps); what is proved of results that depend
      on the arithmetic is stated on such values.
    - [throw] is the [Throw] completion; [console.warn] appends to a log
      that is returned next to the value.
    - Creating a typed array whose length comes from the caller or from
      the file ([expectedLength] in [decompressRLE]) throws a RangeError
      when the host does not create one that long ([new_Uint8Array], the
      host's limit being a parameter); a typed array made to hold data
      that exists already (a copy, a slice, two arrays joined) is taken to
      be created.
    - Loops that always terminate are total functions (structural or
      well-founded recursion); the tick loop of the player, which need not
      terminate, takes fuel and returns [None] when the fuel runs out. *)

From Stdlib Require Import ZArith QArith Qround Qminmax Lia Lqa ZifyNat String Ascii.
From stdpp Require Import base decidable option list numbers strings pretty.
From Equations Require Import Equations.

Set Default Proof Using "Type".

(* Let [lia] reason about division and remainder by constants. *)
Ltac Zify.zify_post_hook ::= Z.to_euclidean_division_equations.

(** ** Bytes and JavaScript values *)

Abbreviation byte := Byte.byte.

#[global] Instance byte_eq_dec : EqDecision byte := Byte.byte_eq_dec.
#[global] Instance byte_inhabited : Inhabited byte := populate Byte.x00.

(** The number held by a byte. *)
Definition byte_to_Z (b : byte) : Z := Z.of_nat (Byte.to_nat b).

(** [ToUint8]: what a typed-array store does to an integer-valued number. *)
Definition ToUint8 (z : Z) : byte :=
  default Byte.x00 (Byte.of_nat (Z.to_nat (z mod 256))).

(** Storing a value that may be [undefined]: [ToNumber(undefined)] is NaN,
    which a [Uint8Array] stores as 0. *)
Definition store_u8 (v : option byte) : byte := default Byte.x00 v.

Inductive completion (A : Type) : Type :=
| Return (a : A)
| Throw (message : string).
Arguments Return {A} a.
Arguments Throw {A} message.

Inductive console_msg : Type :=
| WarnAlreadyCompressed
| WarnRLEMismatch (expected got : nat).

Record logged (A : Type) : Type := Logged { console : list console_msg; value : A }.
Arguments Logged {A} console value.
Arguments console {A} _.
Arguments value {A} _.

(** ** Run-length codec *)

Definition MAX_RLE_RUN : nat := 255.

Module RLE.

(** The inner [while] of [compressRLE]: count the voxels equal to
    [h, s, b, a] from position [j] on, up to [MAX_RLE_RUN]. Returns the final
    [(count, j)]. *)
Equations? count_run (voxelData : list byte) (h s b a : option byte)
    (count j : nat) : nat * nat by wf (length voxelData - j) lt :=
  count_run voxelData h s b a count j
    with decide (j < length voxelData ∧ count < MAX_RLE_RUN) := {
    | left _ =>
        if decide (voxelData !! j = h ∧ voxelData !! (j + 1) = s ∧
                   voxelData !! (j + 2) = b ∧ voxelData !! (j + 3) = a)
        then count_run voxelData h s b a (S count) (j + 4)
        else (count, j)
    | right _ => (count, j) }.
Proof. lia. Qed.

(** [j] only moves forward, which is why the outer loop terminates. *)
Lemma count_run_ge voxelData h s b a count j :
  j ≤ (count_run voxelData h s b a count j).2.
Proof.
  funelim (count_run voxelData h s b a count j); simpl; [|lia].
  case_decide; simpl; [|lia].
  match goal with IH : _ → _ ≤ _ |- _ => specialize (IH ltac:(done)); lia end.
Qed.

(** The outer [while] of [compressRLE]. [compressed] is the JavaScript array
    of numbers that the source converts with [new Uint8Array(compressed)]
    at the end; the conversion is applied here as each number is pushed. *)
Equations? compress_loop (voxelData : list byte) (compressed : list byte)
    (i : nat) : list byte by wf (length voxelData - i) lt :=
  compress_loop voxelData compressed i with decide (i < length voxelData) := {
    | left _
        with Logic.inspect
               (count_run voxelData (voxelData !! i) (voxelData !! (i + 1))
                  (voxelData !! (i + 2)) (voxelData !! (i + 3)) 1 (i + 4)) := {
        | exist _ (pair count j) Hrun =>
            compress_loop voxelData
              (compressed ++ [ToUint8 (Z.of_nat count);
                              store_u8 (voxelData !! i);
                              store_u8 (voxelData !! (i + 1));
                              store_u8 (voxelData !! (i + 2));
                              store_u8 (voxelData !! (i + 3))])
              j }
    | right _ => compressed }.
Proof.
  pose proof (count_run_ge voxelData (voxelData !! i) (voxelData !! (i + 1))
                (voxelData !! (i + 2)) (voxelData !! (i + 3)) 1 (i + 4)) as Hge.
  rewrite Hrun in Hge. simpl in Hge. lia.
Qed.

(** The [for] loop of [decompressRLE]: write up to [count] copies of the
    voxel, stopping ([break]) when four more bytes would not fit. *)
Fixpoint write_run (count : nat) (h s b a : option byte) (expectedLength : nat)
    (decompressed : list byte) (writePos : nat) : list byte * nat :=
  match count with
  | O => (decompressed, writePos)
  | S count' =>
      if decide (expectedLength < writePos + 4) then (decompressed, writePos)
      else
        write_run count' h s b a expectedLength
          (<[writePos + 3 := store_u8 a]>
             (<[writePos + 2 := store_u8 b]>
                (<[writePos + 1 := store_u8 s]>
                   (<[writePos := store_u8 h]> decompressed))))
          (writePos + 4)
  end.

(** The [while] of [decompressRLE]. Returns the buffer and [writePos]. *)
Equations? decompress_loop (compressedData : list byte) (expectedLength : nat)
    (decompressed : list byte) (writePos readPos : nat) : list byte * nat
    by wf (length compressedData - readPos) lt :=
  decompress_loop compressedData expectedLength decompressed writePos readPos
    with decide (readPos < length compressedData ∧ writePos < expectedLength) := {
    | left _ =>
        let count := compressedData !! readPos in
        let h := compressedData !! (readPos + 1) in
        let s := compressedData !! (readPos + 2) in
        let b := compressedData !! (readPos + 3) in
        let a := compressedData !! (readPos + 4) in
        let w := write_run (Byte.to_nat (store_u8 count)) h s b a expectedLength
                   decompressed writePos in
        decompress_loop compressedData expectedLength w.1 w.2 (readPos + 5)
    | right _ => (decompressed, writePos) }.
Proof. lia. Qed.

End RLE.

Definition compressRLE (voxelData : list byte) : completion (list byte) :=
  if decide (length voxelData = 0) then Return []
  else if decide (length voxelData mod 4 ≠ 0)
       then Throw "Voxel data must be multiple of 4 bytes"
       else Return (RLE.compress_loop voxelData [] 0).

(** [new Uint8Array(length)] for a length given as a number: [length]
    zero bytes, or a RangeError when the host does not create a typed array
    that long. [limit] is the longest one it creates (ECMAScript allows no
    host more than 2^53 - 1). *)
Definition new_Uint8Array (limit length : nat) : completion (list byte) :=
  if decide (length ≤ limit) then Return (replicate length Byte.x00)
  else Throw ("Invalid typed array length: " +:+ pretty length).

Definition decompressRLE (limit : nat) (compressedData : list byte) (expectedLength : nat)
  : logged (completion (list byte)) :=
  match new_Uint8Array limit expectedLength with
  | Throw e => Logged [] (Throw e)
  | Return decompressed =>
      let r := RLE.decompress_loop compressedData expectedLength decompressed 0 0 in
      Logged (if decide (r.2 ≠ expectedLength)
              then [WarnRLEMismatch expectedLength r.2] else [])
             (Return r.1)
  end.

(** The [writePos] with which [decompressRLE] leaves its loop: the number
    of bytes it produced. *)
Definition final_writePos (compressedData : list byte) (expectedLength : nat) : nat :=
  (RLE.decompress_loop compressedData expectedLength
     (replicate expectedLength Byte.x00) 0 0).2.

(** What a compressed stream denotes: the concatenation of its runs, each
    [count] copies of its voxel. A last run cut short reads its missing
    bytes as 0, as the typed-array store in [decompressRLE] does. *)
Definition run (count : byte) (voxel : list byte) : list byte :=
  concat (replicate (Byte.to_nat count) voxel).

Fixpoint expand_runs (compressedData : list byte) : list byte :=
  match compressedData with
  | [] => []
  | count :: h :: s :: b :: a :: rest => run count [h; s; b; a] ++ expand_runs rest
  | count :: tl => run count (resize 4 Byte.x00 tl)
  end.

(** ** HSBA pixel codec *)

(** [Math.round]: the nearest integer, halves rounded up. The source
    computes in double precision and the model exactly; on whole
    percentages 0-100 and on bytes 0-255 both give the same integers. *)
Definition Math_round (x : Q) : Z := Qfloor (x + (1 # 2))%Q.

Definition clamp (v min max : Q) : Q := Qmin (Qmax v min) max.

(** [Number(v) || 0] for a value read from a typed array. *)
Definition number_or_0 (v : option byte) : Q := inject_Z (byte_to_Z (store_u8 v)).

Definition percentToByte (percent : Q) : Z :=
  let p := clamp percent 0 100 in
  Math_round ((p / 100) * 255)%Q.

Definition byteToPercent (byte : Q) : Z :=
  let b := clamp byte 0 255 in
  Math_round ((b / 255) * 100)%Q.

Module HSBAUtil.

(** The object [{h, s, b, a}] that [normalizeHsbaInput] returns. *)
Record color : Type := Color { h : Q; s : Q; b : Q; a : Q }.

Definition encodePixel (input : color) : list byte :=
  let hByte := clamp (inject_Z (Math_round (h input))) 0 255 in
  let sByte := percentToByte (s input) in
  let bByte := percentToByte (b input) in
  let aByte := percentToByte (a input) in
  [ToUint8 (Qfloor hByte); ToUint8 sByte; ToUint8 bByte; ToUint8 aByte].

Definition decodePixel (bytes : list byte) : color :=
  {| h := clamp (number_or_0 (bytes !! 0)) 0 255;
     s := inject_Z (byteToPercent (number_or_0 (bytes !! 1)));
     b := inject_Z (byteToPercent (number_or_0 (bytes !! 2)));
     a := inject_Z (byteToPercent (number_or_0 (bytes !! 3))) |}.

End HSBAUtil.

(** ** Header *)

Definition HOLOGLYPH_MAGIC : string := "HGLY".
Definition HOLOGLYPH_VERSION : Z := 1.

Module COLOR_MODEL.
Definition HSBA_255_100 : Z := 0.
End COLOR_MODEL.

Module COMPRESSION_TYPE.
Definition NONE : Z := 0.
Definition RLE : Z := 1.
End COMPRESSION_TYPE.

(** [s.charCodeAt(i)], [undefined] standing for NaN past the end. *)
Definition charCodeAt (s : string) (i : nat) : option byte :=
  byte_of_ascii <$> String.get i s.

(** [String.fromCharCode(v)] for a value read from a typed array. *)
Definition fromCharCode (v : option byte) : string :=
  String (ascii_of_byte (store_u8 v)) EmptyString.

(** [dv.setUint32(offset, value, true)]: four bytes, least significant
    first, of [value] modulo 2^32. *)
Definition setUint32_le (offset : nat) (value : Z) (u8 : list byte) : list byte :=
  let v := (value mod 2 ^ 32)%Z in
  <[offset + 3 := ToUint8 (v / 2 ^ 24)]>
    (<[offset + 2 := ToUint8 (v / 2 ^ 16)]>
       (<[offset + 1 := ToUint8 (v / 2 ^ 8)]>
          (<[offset := ToUint8 v]> u8))).

(** [u8[i]] used as a number, at a position known to be in range. *)
Definition get_u8 (u8 : list byte) (i : nat) : Z := byte_to_Z (u8 !!! i).

(** [dv.getUint32(offset, true)]. *)
Definition getUint32_le (u8 : list byte) (offset : nat) : Z :=
  (get_u8 u8 offset + 2 ^ 8 * get_u8 u8 (offset + 1)
   + 2 ^ 16 * get_u8 u8 (offset + 2) + 2 ^ 24 * get_u8 u8 (offset + 3))%Z.

Module Options.
Record t : Type := Build {
  width : Z; height : Z; depth : Z;
  frameCount : Z; frameDurationMs : Z;
  loop : bool; loopStartFrame : Z;
  bytesPerVoxel : Z; colorModel : Z; compressionType : Z }.

(** The defaults of the destructuring in [createHologlyphHeader]. *)
Definition defaults : t :=
  {| width := 32; height := 32; depth := 32;
     frameCount := 1; frameDurationMs := 100;
     loop := true; loopStartFrame := 0;
     bytesPerVoxel := 4; colorModel := COLOR_MODEL.HSBA_255_100;
     compressionType := COMPRESSION_TYPE.NONE |}.

(** The valid ranges of the fields: grid dimensions 1-255, at least one
    frame, a duration that is not negative, and every number within the
    width of its slot in the header (one byte, or an unsigned 32-bit
    integer). *)
Definition valid (o : t) : Prop :=
  (1 ≤ width o ≤ 255 ∧ 1 ≤ height o ≤ 255 ∧ 1 ≤ depth o ≤ 255 ∧
   1 ≤ frameCount o < 2 ^ 32 ∧ 0 ≤ frameDurationMs o < 2 ^ 32 ∧
   0 ≤ loopStartFrame o < 2 ^ 32 ∧ 0 ≤ bytesPerVoxel o ≤ 255 ∧
   0 ≤ colorModel o ≤ 255 ∧ 0 ≤ compressionType o ≤ 255)%Z.

(** The fields as a header stores them: each reduced to the width of its
    slot. *)
Definition wrap (o : t) : t :=
  {| width := width o mod 256; height := height o mod 256;
     depth := depth o mod 256;
     frameCount := frameCount o mod 2 ^ 32;
     frameDurationMs := frameDurationMs o mod 2 ^ 32;
     loop := loop o; loopStartFrame := loopStartFrame o mod 2 ^ 32;
     bytesPerVoxel := bytesPerVoxel o mod 256;
     colorModel := colorModel o mod 256;
     compressionType := compressionType o mod 256 |}%Z.

Definition with_compressionType (c : Z) (o : t) : t :=
  Build (width o) (height o) (depth o) (frameCount o) (frameDurationMs o)
        (loop o) (loopStartFrame o) (bytesPerVoxel o) (colorModel o) c.
End Options.

Module Header.
Record t : Type := Build {
  magic : string; version : Z; headerSize : Z;
  loop : bool; loopStartFrame : Z; bytesPerVoxel : Z;
  width : Z; height : Z; depth : Z;
  colorModel : Z; compressionType : Z;
  frameCount : Z; frameDurationMs : Z;
  frameSizeBytes : Z; dataOffset : Z }.

(** The record that describes a version-1 header holding the options [o]. *)
Definition of_options (o : Options.t) : t :=
  {| magic := "HGLY"; version := 1; headerSize := 28;
     loop := Options.loop o; loopStartFrame := Options.loopStartFrame o;
     bytesPerVoxel := Options.bytesPerVoxel o;
     width := Options.width o; height := Options.height o;
     depth := Options.depth o;
     colorModel := Options.colorModel o;
     compressionType := Options.compressionType o;
     frameCount := Options.frameCount o;
     frameDurationMs := Options.frameDurationMs o;
     frameSizeBytes := (Options.width o * Options.height o * Options.depth o
                        * Options.bytesPerVoxel o)%Z;
     dataOffset := 28 |}.
End Header.

Definition createHologlyphHeader (options : Options.t) : list byte :=
  let headerSize := 28 in
  let u8 := replicate headerSize Byte.x00 in
  let u8 := foldl (λ u8 i, <[i := store_u8 (charCodeAt HOLOGLYPH_MAGIC i)]> u8)
              u8 (seq 0 4) in
  let u8 := <[4 := ToUint8 HOLOGLYPH_VERSION]> u8 in
  let u8 := <[5 := ToUint8 (Z.of_nat headerSize)]> u8 in
  let flags := if Options.loop options then Z.lor 0 1 else 0%Z in
  let u8 := <[6 := ToUint8 flags]> u8 in
  let u8 := <[7 := ToUint8 (Options.bytesPerVoxel options)]> u8 in
  let u8 := <[8 := ToUint8 (Options.width options)]> u8 in
  let u8 := <[9 := ToUint8 (Options.height options)]> u8 in
  let u8 := <[10 := ToUint8 (Options.depth options)]> u8 in
  let u8 := <[11 := ToUint8 (Options.colorModel options)]> u8 in
  let u8 := setUint32_le 12 (Options.frameCount options) u8 in
  let u8 := setUint32_le 16 (Options.frameDurationMs options) u8 in
  let u8 := setUint32_le 20 0 u8 in
  let u8 := setUint32_le 24 (Options.loopStartFrame options) u8 in
  <[23 := ToUint8 (Options.compressionType options)]> u8.

Definition parseHologlyphHeader (u8 : list byte) : completion Header.t :=
  if decide (length u8 < 28) then Throw "Invalid hologlyph buffer"
  else
    let magic :=
      (fromCharCode (u8 !! 0) ++ fromCharCode (u8 !! 1) ++
       fromCharCode (u8 !! 2) ++ fromCharCode (u8 !! 3))%string in
    if decide (magic ≠ HOLOGLYPH_MAGIC) then Throw "Invalid magic"
    else
      let flags := get_u8 u8 6 in
      let loop := negb (Z.land flags 1 =? 0)%Z in
      let width := get_u8 u8 8 in
      let height := get_u8 u8 9 in
      let depth := get_u8 u8 10 in
      let bytesPerVoxel := get_u8 u8 7 in
      let frameCount := getUint32_le u8 12 in
      let frameDurationMs := getUint32_le u8 16 in
      let loopStartFrame := getUint32_le u8 24 in
      let compressionType :=
        if decide (get_u8 u8 23 = 0%Z) then COMPRESSION_TYPE.NONE else get_u8 u8 23 in
      let frameSizeBytes := (width * height * depth * bytesPerVoxel)%Z in
      Return {| Header.magic := magic;
                Header.version := get_u8 u8 4;
                Header.headerSize := get_u8 u8 5;
                Header.loop := loop;
                Header.loopStartFrame := loopStartFrame;
                Header.bytesPerVoxel := bytesPerVoxel;
                Header.width := width;
                Header.height := height;
                Header.depth := depth;
                Header.colorModel := get_u8 u8 11;
                Header.compressionType := compressionType;
                Header.frameCount := frameCount;
                Header.frameDurationMs := frameDurationMs;
                Header.frameSizeBytes := frameSizeBytes;
                Header.dataOffset := 28 |}.

(** ** Whole-file compression *)

(** The options with which both file functions rebuild the header. *)
Definition options_of_header (header : Header.t) (compressionType : Z) : Options.t :=
  {| Options.width := Header.width header;
     Options.height := Header.height header;
     Options.depth := Header.depth header;
     Options.frameCount := Header.frameCount header;
     Options.frameDurationMs := Header.frameDurationMs header;
     Options.loop := Header.loop header;
     Options.loopStartFrame := Header.loopStartFrame header;
     Options.bytesPerVoxel := Header.bytesPerVoxel header;
     Options.colorModel := Header.colorModel header;
     Options.compressionType := compressionType |}.

Definition compressGlyfFile (buffer : list byte) : logged (completion (list byte)) :=
  match parseHologlyphHeader buffer with
  | Throw e => Logged [] (Throw e)
  | Return header =>
      if decide (Header.compressionType header ≠ COMPRESSION_TYPE.NONE)
      then Logged [WarnAlreadyCompressed] (Return buffer)
      else
        let voxelData := drop 28 buffer in
        match compressRLE voxelData with
        | Throw e => Logged [] (Throw e)
        | Return compressedVoxels =>
            let newHeader :=
              createHologlyphHeader (options_of_header header COMPRESSION_TYPE.RLE) in
            Logged [] (Return (newHeader ++ compressedVoxels))
        end
  end.

Definition decompressGlyfFile (limit : nat) (buffer : list byte)
  : logged (completion (list byte)) :=
  match parseHologlyphHeader buffer with
  | Throw e => Logged [] (Throw e)
  | Return header =>
      if decide (Header.compressionType header = COMPRESSION_TYPE.NONE)
      then Logged [] (Return buffer)
      else if decide (Header.compressionType header = COMPRESSION_TYPE.RLE)
      then
        let compressedVoxels := drop 28 buffer in
        let expectedLength := (Header.frameSizeBytes header * Header.frameCount header)%Z in
        let r := decompressRLE limit compressedVoxels (Z.to_nat expectedLength) in
        match value r with
        | Throw e => Logged (console r) (Throw e)
        | Return decompressedVoxels =>
            let newHeader :=
              createHologlyphHeader (options_of_header header COMPRESSION_TYPE.NONE) in
            Logged (console r) (Return (newHeader ++ decompressedVoxels))
        end
      else Logged [] (Throw ("Unknown compression type: "
                             +:+ pretty (Header.compressionType header)))
  end.

(** ** Player *)

(** [for (let i = 0; i < bound; i++) body], the body not assigning [i]. *)
Fixpoint for_range {S : Type} (i : Z) (count : nat) (body : Z → S → S) (st : S) : S :=
  match count with
  | O => st
  | S count' => for_range (i + 1)%Z count' body (body i st)
  end.

Definition for_lt {S : Type} (bound : Z) (body : Z → S → S) (st : S) : S :=
  for_range 0 (Z.to_nat bound) body st.

(** [u8.subarray(begin, end)]: negative positions count from the end, and
    both are clamped to the array. *)
Definition subarray (u8 : list byte) (begin end_ : Z) : list byte :=
  let len := Z.of_nat (length u8) in
  let rel i := (if i <? 0 then Z.max (len + i) 0 else Z.min i len)%Z in
  take (Z.to_nat (rel end_ - rel begin)) (drop (Z.to_nat (rel begin)) u8).

(** What a render pass hands to the graphics backend, one entry per voxel
    drawn. The colour is the decoded HSBA that the source passes to its
    RGBA conversion, which is floating-point and not modelled. *)
Inductive draw_call : Type :=
| DrawCube (modelMatrix : list Q) (hsba : HSBAUtil.color)
| FillRect (screenX screenY w h : Q) (hsba : HSBAUtil.color).

Module Player.

Record t : Type := Build {
  useWebGL : bool;
  canvas_width : Q; canvas_height : Q;
  _u8 : list byte;
  header : Header.t;
  width : Z; height : Z; depth : Z;
  frameCount : Z; frameSizeBytes : Z; dataOffset : Z;
  frameDurationMs : Z; loop : bool; loopStartFrame : Z;
  bytesPerVoxel : Z; voxelSize : Q;
  currentFrame : Z; _playing : bool; _lastTs : Q; _accum : Q }.

Definition set_currentFrame (v : Z) (p : t) : t :=
  Build (useWebGL p) (canvas_width p) (canvas_height p) (_u8 p) (header p)
    (width p) (height p) (depth p) (frameCount p) (frameSizeBytes p) (dataOffset p)
    (frameDurationMs p) (loop p) (loopStartFrame p) (bytesPerVoxel p) (voxelSize p)
    v (_playing p) (_lastTs p) (_accum p).

Definition set_playing (v : bool) (p : t) : t :=
  Build (useWebGL p) (canvas_width p) (canvas_height p) (_u8 p) (header p)
    (width p) (height p) (depth p) (frameCount p) (frameSizeBytes p) (dataOffset p)
    (frameDurationMs p) (loop p) (loopStartFrame p) (bytesPerVoxel p) (voxelSize p)
    (currentFrame p) v (_lastTs p) (_accum p).

Definition set_lastTs (v : Q) (p : t) : t :=
  Build (useWebGL p) (canvas_width p) (canvas_height p) (_u8 p) (header p)
    (width p) (height p) (depth p) (frameCount p) (frameSizeBytes p) (dataOffset p)
    (frameDurationMs p) (loop p) (loopStartFrame p) (bytesPerVoxel p) (voxelSize p)
    (currentFrame p) (_playing p) v (_accum p).

Definition set_accum (v : Q) (p : t) : t :=
  Build (useWebGL p) (canvas_width p) (canvas_height p) (_u8 p) (header p)
    (width p) (height p) (depth p) (frameCount p) (frameSizeBytes p) (dataOffset p)
    (frameDurationMs p) (loop p) (loopStartFrame p) (bytesPerVoxel p) (voxelSize p)
    (currentFrame p) (_playing p) (_lastTs p) v.

(** [play()]; the [requestAnimationFrame] it issues is the caller's next
    [_loop]. *)
Definition play (p : t) : t := if _playing p then p else set_playing true p.

Definition pause (p : t) : t := set_playing false p.

(** [stop()], without the render it ends with. *)
Definition stop (p : t) : t := set_currentFrame 0 (pause p).

(** The constructor, for a canvas of the given size whose drawing context
    is available. *)
Definition new (limit : nat) (canvas_width canvas_height : Q) (data : list byte)
    (autoPlay : bool) (voxelSize : Q) (useWebGL : bool) : completion t :=
  match parseHologlyphHeader data with
  | Throw e => Throw e
  | Return tempHeader =>
      let rawData :=
        if decide (Header.compressionType tempHeader ≠ COMPRESSION_TYPE.NONE)
        then value (decompressGlyfFile limit data) else Return data in
      match rawData with
      | Throw e => Throw e
      | Return rawData =>
          match parseHologlyphHeader rawData with
          | Throw e => Throw e
          | Return header =>
              let p :=
                {| useWebGL := useWebGL;
                   canvas_width := canvas_width; canvas_height := canvas_height;
                   _u8 := rawData; header := header;
                   width := Header.width header;
                   height := Header.height header;
                   depth := Header.depth header;
                   frameCount := Header.frameCount header;
                   frameSizeBytes := Header.frameSizeBytes header;
                   dataOffset := Header.dataOffset header;
                   frameDurationMs := Header.frameDurationMs header;
                   loop := Header.loop header;
                   loopStartFrame := Header.loopStartFrame header;
                   bytesPerVoxel := Header.bytesPerVoxel header;
                   voxelSize := voxelSize;
                   currentFrame := 0; _playing := false;
                   _lastTs := 0; _accum := 0 |} in
              Return (if autoPlay then play p else p)
          end
      end
  end.

Definition _advanceFrame (p : t) : t :=
  if (currentFrame p + 1 <? frameCount p)%Z
  then set_currentFrame (currentFrame p + 1) p
  else if loop p
       then set_currentFrame (Z.min (loopStartFrame p) (frameCount p - 1)) p
       else pause p.

(** The [while] of [_loop]: [None] when the fuel runs out first. Time is
    exact here and double precision in the source; the two agree when
    [_accum] is a whole number below 2^53. *)
Fixpoint advance_due (fuel : nat) (p : t) : option t :=
  match fuel with
  | O => None
  | S fuel' =>
      if Qle_bool (inject_Z (frameDurationMs p)) (_accum p)
      then advance_due fuel'
             (_advanceFrame (set_accum (_accum p - inject_Z (frameDurationMs p)) p))
      else Some p
  end.

(** [_loop(ts)], up to the render and the next [requestAnimationFrame].
    The difference and the sum are exact here and rounded in the source;
    they agree on whole timestamps below 2^53. *)
Definition _loop (fuel : nat) (ts : Q) (p : t) : option t :=
  if negb (_playing p) then Some p
  else
    let delta := (ts - (if Qeq_bool (_lastTs p) 0 then ts else _lastTs p))%Q in
    let p := set_lastTs ts p in
    let p := set_accum (_accum p + delta) p in
    advance_due fuel p.

(** Successive animation frames: [_loop] called with each timestamp in
    turn, as [requestAnimationFrame] does. *)
Fixpoint run_loop (fuel : nat) (timestamps : list Q) (p : t) : option t :=
  match timestamps with
  | [] => Some p
  | ts :: timestamps' =>
      match _loop fuel ts p with
      | Some p' => run_loop fuel timestamps' p'
      | None => None
      end
  end.

Definition _getFrameBytes (p : t) : list byte :=
  let offset := (dataOffset p + currentFrame p * frameSizeBytes p)%Z in
  subarray (_u8 p) offset (offset + frameSizeBytes p).

Definition _createModelMatrix (x y z : Q) : list Q :=
  [1; 0; 0; 0;
   0; 1; 0; 0;
   0; 0; 1; 0;
   x; y; z; 1]%Q.

(** Body of the innermost loop of [_renderWebGL]; the state is [index]
    and the calls issued so far. *)
Definition webgl_voxel (p : t) (frame : list byte) (z y x : Z)
    (st : Z * list draw_call) : Z * list draw_call :=
  let index := st.1 in
  let base := (index * bytesPerVoxel p)%Z in
  let px := subarray frame base (base + 4) in
  let c := HSBAUtil.decodePixel px in
  if Qeq_bool (HSBAUtil.a c) 0 || Qeq_bool (HSBAUtil.b c) 0
  then ((index + 1)%Z, st.2)
  else
    let modelMatrix :=
      _createModelMatrix (inject_Z x - inject_Z (width p) / 2)
                         (inject_Z y - inject_Z (height p) / 2)
                         (inject_Z z - inject_Z (depth p) / 2) in
    ((index + 1)%Z, st.2 ++ [DrawCube modelMatrix c]).

(** The per-voxel pass of [_renderWebGL]. *)
Definition _renderWebGL (p : t) : list draw_call :=
  let frame := _getFrameBytes p in
  (for_lt (depth p) (λ z,
     for_lt (height p) (λ y,
       for_lt (width p) (λ x, webgl_voxel p frame z y x)))
     (0%Z, [])).2.

(** Body of the innermost loop of [_render2D]. *)
Definition canvas_voxel (p : t) (frame : list byte) (z y x : Z)
    (st : Z * list draw_call) : Z * list draw_call :=
  let cx := (canvas_width p / 2)%Q in
  let cy := (canvas_height p / 2)%Q in
  let isoXZ := (1 # 2)%Q in
  let isoZY := (1 # 2)%Q in
  let index := st.1 in
  let base := (index * bytesPerVoxel p)%Z in
  let px := subarray frame base (base + 4) in
  let c := HSBAUtil.decodePixel px in
  if Qeq_bool (HSBAUtil.a c) 0 || Qeq_bool (HSBAUtil.b c) 0
  then ((index + 1)%Z, st.2)
  else
    let dx := (inject_Z x - inject_Z (width p) / 2)%Q in
    let dy := (inject_Z y - inject_Z (height p) / 2)%Q in
    let dz := (inject_Z z - inject_Z (depth p) / 2)%Q in
    let screenX := (cx + (dx - dz * isoXZ) * voxelSize p)%Q in
    let screenY := (cy + (dy + dz * isoZY) * voxelSize p)%Q in
    ((index + 1)%Z,
     st.2 ++ [FillRect screenX screenY (voxelSize p) (voxelSize p) c]).

(** The per-voxel pass of [_render2D]. *)
Definition _render2D (p : t) : list draw_call :=
  let frame := _getFrameBytes p in
  (for_lt (depth p) (λ z,
     for_lt (height p) (λ y,
       for_lt (width p) (λ x, canvas_voxel p frame z y x)))
     (0%Z, [])).2.

Definition render (p : t) : list draw_call :=
  if useWebGL p then _renderWebGL p else _render2D p.

(** The cells [(x, y, z)] of a grid in storage order: Z slowest, then Y,
    X fastest. *)
Definition grid_cells (w h d : Z) : list (Z * Z * Z) :=
  z ← seqZ 0 d; y ← seqZ 0 h; x ← seqZ 0 w; [(x, y, z)].


(** The colour decoded from the current frame at a voxel position. *)
Definition voxel_at (p : t) (index : Z) : HSBAUtil.color :=
  HSBAUtil.decodePixel
    (subarray (_getFrameBytes p) (index * bytesPerVoxel p)
       (index * bytesPerVoxel p + 4)).





(** Timestamps that never go back, from [t] on. *)
Fixpoint nondecreasing (t : Q) (timestamps : list Q) : Prop :=
  match timestamps with
  | [] => True
  | t' :: timestamps' => (t <= t')%Q ∧ nondecreasing t' timestamps'
  end.



(** The calls that change the playback state of a constructed player: the
    three transport methods, and an animation frame that returns. *)
Inductive step : t → t → Prop :=
| step_play (p : t) : step p (play p)
| step_pause (p : t) : step p (pause p)
| step_stop (p : t) : step p (stop p)
| step_loop (fuel : nat) (ts : Q) (p p' : t) : _loop fuel ts p = Some p' → step p p'.

(** The states a player gets into by any number of such calls. *)
Inductive reachable (p : t) : t → Prop :=
| reachable_refl : reachable p p
| reachable_step (p' p'' : t) : reachable p p' → step p' p'' → reachable p p''.

End Player.

(** * Properties *)

(** ** Bytes *)

Lemma Return_inj {A : Type} (a a' : A) : Return a = Return a' → a = a'.
Proof. congruence. Qed.

Lemma to_nat_ToUint8 (n : nat) : n < 256 → Byte.to_nat (ToUint8 (Z.of_nat n)) = n.
Proof.
  intros Hn. unfold ToUint8.
  rewrite Z.mod_small by lia. rewrite Nat2Z.id.
  destruct (Byte.of_nat n) as [b|] eqn:E; simpl.
  - by apply Byte.to_of_nat.
  - apply Byte.of_nat_None_iff in E. lia.
Qed.

Lemma byte_to_Z_range (b : byte) : (0 ≤ byte_to_Z b < 256)%Z.
Proof. unfold byte_to_Z. pose proof (Byte.to_nat_bounded b). lia. Qed.

Lemma ToUint8_byte_to_Z (b : byte) : ToUint8 (byte_to_Z b) = b.
Proof.
  unfold ToUint8. rewrite Z.mod_small by apply byte_to_Z_range.
  unfold byte_to_Z. by rewrite Nat2Z.id, Byte.of_to_nat.
Qed.

Lemma byte_to_Z_ToUint8 (z : Z) : byte_to_Z (ToUint8 z) = (z mod 256)%Z.
Proof.
  pose proof (Z.mod_pos_bound z 256 ltac:(lia)) as Hz.
  unfold byte_to_Z, ToUint8.
  destruct (Byte.of_nat (Z.to_nat (z mod 256))) as [b|] eqn:E; simpl.
  - apply Byte.to_of_nat in E. lia.
  - apply Byte.of_nat_None_iff in E. lia.
Qed.

(** ** Run-length codec *)

Section rle_unfold.
Import RLE.

Lemma count_run_exit x h s b a count j :
  ¬ (j < length x ∧ count < MAX_RLE_RUN) →
  count_run x h s b a count j = (count, j).
Proof. intros H. simp count_run. by destruct (decide _). Qed.

Lemma count_run_step x h s b a count j :
  j < length x → count < MAX_RLE_RUN →
  count_run x h s b a count j =
    if decide (x !! j = h ∧ x !! (j + 1) = s ∧ x !! (j + 2) = b ∧ x !! (j + 3) = a)
    then count_run x h s b a (S count) (j + 4) else (count, j).
Proof.
  intros H1 H2. rewrite count_run_equation_1.
  destruct (decide (j < length x ∧ count < MAX_RLE_RUN)) as [|[]]; done.
Qed.

Lemma compress_loop_exit x compressed i :
  ¬ i < length x → compress_loop x compressed i = compressed.
Proof. intros H. simp compress_loop. by destruct (decide _). Qed.

Lemma compress_loop_step x compressed i :
  i < length x →
  compress_loop x compressed i =
    let r := count_run x (x !! i) (x !! (i + 1)) (x !! (i + 2)) (x !! (i + 3)) 1 (i + 4) in
    compress_loop x
      (compressed ++ [ToUint8 (Z.of_nat r.1); store_u8 (x !! i); store_u8 (x !! (i + 1));
                      store_u8 (x !! (i + 2)); store_u8 (x !! (i + 3))])
      r.2.
Proof.
  intros H. rewrite compress_loop_equation_1.
  destruct (decide (i < length x)); [|done]. simpl.
  by destruct (count_run _ _ _ _ _ _ _).
Qed.

Lemma decompress_loop_exit c n d w r :
  ¬ (r < length c ∧ w < n) → decompress_loop c n d w r = (d, w).
Proof. intros H. simp decompress_loop. by destruct (decide _). Qed.

Lemma decompress_loop_step c n d w r :
  r < length c → w < n →
  decompress_loop c n d w r =
    let w' := write_run (Byte.to_nat (store_u8 (c !! r))) (c !! (r + 1)) (c !! (r + 2))
                (c !! (r + 3)) (c !! (r + 4)) n d w in
    decompress_loop c n w'.1 w'.2 (r + 5).
Proof.
  intros H1 H2. rewrite decompress_loop_equation_1.
  destruct (decide (r < length c ∧ w < n)) as [|[]]; done.
Qed.
End rle_unfold.

Section rle_decode.
Import RLE.
Implicit Types (c d x filled v : list byte) (n w r q k limit : nat).

Lemma length_concat_replicate k v :
  length (concat (replicate k v)) = k * length v.
Proof. induction k as [|k IH]; simpl; [done|]. rewrite length_app, IH. lia. Qed.

Lemma take_concat_replicate q k v E :
  length v = 4 →
  take (4 * q) (concat (replicate k v) ++ E) =
    concat (replicate (k `min` q) v) ++ take (4 * (q - k `min` q)) E.
Proof.
  intros Hv. destruct (decide (k ≤ q)) as [Hkq|Hkq].
  - rewrite Nat.min_l by done.
    rewrite take_app_ge by (rewrite length_concat_replicate; lia).
    rewrite length_concat_replicate. do 2 f_equal. lia.
  - rewrite Nat.min_r by lia.
    replace (4 * (q - q)) with 0 by lia. rewrite take_0, app_nil_r.
    replace k with (q + (k - q)) by lia.
    rewrite replicate_add, concat_app, <- app_assoc.
    apply take_app_length'. rewrite length_concat_replicate. lia.
Qed.

(** One voxel stored at [writePos .. writePos + 3] of a zero-filled tail. *)
Lemma store_voxel filled n (h s b a : byte) :
  length filled + 4 ≤ n →
  <[length filled + 3 := a]>
    (<[length filled + 2 := b]>
       (<[length filled + 1 := s]>
          (<[length filled := h]> (resize n Byte.x00 filled)))) =
  resize n Byte.x00 (filled ++ [h; s; b; a]).
Proof.
  intros Hn. rewrite !resize_ge by (rewrite ?length_app; simpl; lia).
  rewrite length_app. simpl.
  replace (n - length filled) with (4 + (n - (length filled + 4))) by lia.
  rewrite replicate_add. simpl.
  rewrite <- (Nat.add_0_r (length filled)) at 4.
  rewrite !insert_app_r. simpl. by rewrite <- app_assoc.
Qed.

Lemma write_run_spec count h s b a n filled :
  length filled ≤ n →
  write_run count h s b a n (resize n Byte.x00 filled) (length filled) =
    let out := filled ++ concat (replicate (count `min` ((n - length filled) / 4))
                                   [store_u8 h; store_u8 s; store_u8 b; store_u8 a]) in
    (resize n Byte.x00 out, length out).
Proof.
  revert filled. induction count as [|count IH]; intros filled Hlen;
    cbn [write_run]; cbv zeta.
  - rewrite Nat.min_0_l. cbn [replicate concat]. by rewrite app_nil_r.
  - case_decide as Hfit.
    + replace ((n - length filled) / 4) with 0 by lia.
      rewrite Nat.min_0_r. cbn [replicate concat]. by rewrite app_nil_r.
    + rewrite store_voxel by lia.
      replace (length filled + 4) with
        (length (filled ++ [store_u8 h; store_u8 s; store_u8 b; store_u8 a]))
        by (rewrite length_app; cbn [length]; lia).
      rewrite IH by (rewrite length_app; cbn [length]; lia).
      cbv zeta. rewrite length_app. cbn [length].
      replace ((n - length filled) / 4) with (S ((n - (length filled + 4)) / 4)) by lia.
      rewrite <- Nat.succ_min_distr. cbn [replicate concat].
      by rewrite <- !app_assoc.
Qed.

(** The first run of a stream, read by position as the decoder does. *)
Lemma expand_runs_head c :
  c ≠ [] →
  expand_runs c =
    run (store_u8 (c !! 0))
        [store_u8 (c !! 1); store_u8 (c !! 2); store_u8 (c !! 3); store_u8 (c !! 4)]
    ++ expand_runs (drop 5 c).
Proof.
  intros Hc.
  destruct c as [|x0 [|x1 [|x2 [|x3 [|x4 rest]]]]]; try done;
    simpl; by rewrite ?app_nil_r.
Qed.

Lemma expand_runs_drop c r :
  r < length c →
  expand_runs (drop r c) =
    run (store_u8 (c !! r))
        [store_u8 (c !! (r + 1)); store_u8 (c !! (r + 2));
         store_u8 (c !! (r + 3)); store_u8 (c !! (r + 4))]
    ++ expand_runs (drop (r + 5) c).
Proof.
  intros Hr. rewrite expand_runs_head.
  - rewrite !lookup_drop, drop_drop, Nat.add_0_r. done.
  - intros Hnil. apply (f_equal length) in Hnil.
    rewrite length_drop in Hnil. simpl in Hnil. lia.
Qed.

Lemma decompress_loop_spec c n filled r :
  length filled ≤ n →
  decompress_loop c n (resize n Byte.x00 filled) (length filled) r =
    let out := filled ++ take (4 * ((n - length filled) / 4)) (expand_runs (drop r c)) in
    (resize n Byte.x00 out, length out).
Proof.
  remember (length c - r) as m eqn:Hm. revert filled r Hm.
  induction m as [m IH] using lt_wf_ind. intros filled r Hm Hlen.
  destruct (decide (r < length c ∧ length filled < n)) as [[Hr Hw]|Hexit].
  - rewrite decompress_loop_step by done. cbv zeta.
    rewrite write_run_spec by done. cbv zeta. cbn [fst snd].
    set (q := (n - length filled) / 4).
    set (k := Byte.to_nat (store_u8 (c !! r))).
    set (v := [store_u8 (c !! (r + 1)); store_u8 (c !! (r + 2));
               store_u8 (c !! (r + 3)); store_u8 (c !! (r + 4))]).
    assert (Hout : length (filled ++ concat (replicate (k `min` q) v))
                   = length filled + 4 * (k `min` q)).
    { rewrite length_app, length_concat_replicate. unfold v. cbn [length]. lia. }
    rewrite (IH (length c - (r + 5))) by (rewrite ?Hout; subst q; lia).
    cbv zeta. rewrite Hout.
    rewrite (expand_runs_drop c r) by done. fold k v. unfold run.
    rewrite take_concat_replicate by done.
    replace ((n - (length filled + 4 * (k `min` q))) / 4) with (q - k `min` q)
      by (subst q; lia).
    by rewrite <- !app_assoc.
  - rewrite decompress_loop_exit by done. cbv zeta.
    assert (Hnil : take (4 * ((n - length filled) / 4)) (expand_runs (drop r c)) = []).
    { destruct (decide (r < length c)).
      - replace ((n - length filled) / 4) with 0 by lia. done.
      - rewrite drop_ge by lia. cbn [expand_runs]. by destruct (4 * _). }
    by rewrite Hnil, app_nil_r.
Qed.

(** [decompressRLE] computes the first [4 * (n / 4)] bytes of what the
    stream denotes, padded with zeros (or cut) to [n] bytes. *)
Lemma decompress_loop_value c n :
  (decompress_loop c n (replicate n Byte.x00) 0 0).1 =
    resize n Byte.x00 (take (4 * (n / 4)) (expand_runs c)).
Proof.
  pose proof (decompress_loop_spec c n [] 0 ltac:(simpl; lia)) as H.
  rewrite resize_nil in H. simpl in H.
  rewrite Nat.sub_0_r, drop_0 in H. by rewrite H.
Qed.

(** When the buffer can be created. *)
Lemma decompressRLE_fits limit c n :
  n ≤ limit →
  decompressRLE limit c n =
    Logged (if decide (final_writePos c n ≠ n)
            then [WarnRLEMismatch n (final_writePos c n)] else [])
           (Return (resize n Byte.x00 (take (4 * (n / 4)) (expand_runs c)))).
Proof.
  intros Hn. unfold decompressRLE, new_Uint8Array.
  destruct (decide (n ≤ limit)) as [_|]; [|done].
  cbv zeta. by rewrite decompress_loop_value.
Qed.

(** When it cannot: the RangeError of the first statement. *)
Lemma decompressRLE_oversized limit c n :
  limit < n →
  decompressRLE limit c n =
    Logged [] (Throw ("Invalid typed array length: " +:+ pretty n)).
Proof.
  intros Hn. unfold decompressRLE, new_Uint8Array.
  destruct (decide (n ≤ limit)) as [|_]; [lia|done].
Qed.

Lemma decompressRLE_value limit c n :
  n ≤ limit →
  value (decompressRLE limit c n) =
    Return (resize n Byte.x00 (take (4 * (n / 4)) (expand_runs c))).
Proof. intros Hn. by rewrite decompressRLE_fits. Qed.

Lemma final_writePos_spec c n :
  final_writePos c n = length (take (4 * (n / 4)) (expand_runs c)).
Proof.
  unfold final_writePos.
  pose proof (decompress_loop_spec c n [] 0 ltac:(simpl; lia)) as H.
  rewrite resize_nil in H. simpl in H.
  rewrite Nat.sub_0_r, drop_0 in H. by rewrite H.
Qed.
End rle_decode.

Section rle_encode.
Import RLE.
Implicit Types (c x : list byte) (i j k m count : nat).

Lemma expand_runs_app k c1 c2 :
  length c1 = 5 * k → expand_runs (c1 ++ c2) = expand_runs c1 ++ expand_runs c2.
Proof.
  revert c1. induction k as [|k IH]; intros c1 Hlen.
  - by destruct c1.
  - destruct c1 as [|x0 [|x1 [|x2 [|x3 [|x4 rest]]]]]; simpl in Hlen; try lia.
    cbn [app expand_runs]. rewrite IH by lia. by rewrite app_assoc.
Qed.

(** The inner loop stops at the end of a block of [m] further copies of
    the voxel, never past the end of the data. *)
Lemma count_run_spec x (h s b a : byte) count j :
  j ≤ length x →
  ∃ m, count_run x (Some h) (Some s) (Some b) (Some a) count j
         = (count + m, j + 4 * m)
       ∧ count + m ≤ count `max` MAX_RLE_RUN
       ∧ j + 4 * m ≤ length x
       ∧ drop j x = concat (replicate m [h; s; b; a]) ++ drop (j + 4 * m) x.
Proof.
  remember (length x - j) as d eqn:Hd. revert count j Hd.
  induction d as [d IH] using lt_wf_ind. intros count j Hd Hj.
  destruct (decide (j < length x ∧ count < MAX_RLE_RUN)) as [[Hlt Hmax]|Hexit].
  - rewrite count_run_step by done. case_decide as Hsame.
    + destruct Hsame as (H0 & H1 & H2 & H3).
      assert (j + 3 < length x) by (by eapply lookup_lt_Some).
      destruct (IH (length x - (j + 4)) ltac:(lia) (S count) (j + 4)
                  eq_refl ltac:(lia)) as (m & Hrun & Hcount & Hend & Hdrop).
      exists (S m). rewrite Hrun. split_and!.
      * f_equal; lia.
      * lia.
      * lia.
      * rewrite (drop_S _ _ _ H0).
        replace (S j) with (j + 1) by lia. rewrite (drop_S _ _ _ H1).
        replace (S (j + 1)) with (j + 2) by lia. rewrite (drop_S _ _ _ H2).
        replace (S (j + 2)) with (j + 3) by lia. rewrite (drop_S _ _ _ H3).
        replace (S (j + 3)) with (j + 4) by lia. rewrite Hdrop.
        replace (j + 4 * S m) with (j + 4 + 4 * m) by lia. done.
    + exists 0. rewrite !Nat.add_0_r.
      split_and!; [done|lia|done|done].
  - rewrite count_run_exit by done.
    exists 0. rewrite !Nat.add_0_r.
    split_and!; [done|lia|done|done].
Qed.

Lemma compress_loop_spec x compressed i :
  length x mod 4 = 0 → i mod 4 = 0 → i ≤ length x →
  length compressed mod 5 = 0 →
  expand_runs (compress_loop x compressed i) = expand_runs compressed ++ drop i x.
Proof.
  intros Hx. remember (length x - i) as d eqn:Hd. revert compressed i Hd.
  induction d as [d IH] using lt_wf_ind. intros compressed i Hd Hi Hle Hc.
  destruct (decide (i < length x)) as [Hlt|Hge].
  - rewrite compress_loop_step by done. cbv zeta.
    destruct (lookup_lt_is_Some_2 x i ltac:(lia)) as [h Hh].
    destruct (lookup_lt_is_Some_2 x (i + 1) ltac:(lia)) as [s Hs].
    destruct (lookup_lt_is_Some_2 x (i + 2) ltac:(lia)) as [b Hb].
    destruct (lookup_lt_is_Some_2 x (i + 3) ltac:(lia)) as [a Ha].
    rewrite Hh, Hs, Hb, Ha.
    destruct (count_run_spec x h s b a 1 (i + 4) ltac:(lia))
      as (m & Hrun & Hcount & Hend & Hdrop).
    rewrite Hrun. cbn [fst snd store_u8 default].
    unfold MAX_RLE_RUN in Hcount.
    rewrite (IH (length x - (i + 4 + 4 * m))); [|lia|done|lia|lia|].
    + rewrite (expand_runs_app (length compressed / 5)) by lia.
      cbn [expand_runs]. unfold run.
      rewrite to_nat_ToUint8 by lia. rewrite app_nil_r, <- app_assoc. f_equal.
      rewrite (drop_S _ _ _ Hh).
      replace (S i) with (i + 1) by lia. rewrite (drop_S _ _ _ Hs).
      replace (S (i + 1)) with (i + 2) by lia. rewrite (drop_S _ _ _ Hb).
      replace (S (i + 2)) with (i + 3) by lia. rewrite (drop_S _ _ _ Ha).
      replace (S (i + 3)) with (i + 4) by lia. rewrite Hdrop.
      done.
    + rewrite length_app. cbn [length]. lia.
  - rewrite compress_loop_exit by done.
    rewrite drop_ge by lia. by rewrite app_nil_r.
Qed.

(** Compression succeeds on whole voxels and denotes its input. *)
Lemma compressRLE_spec x :
  length x mod 4 = 0 → ∃ c, compressRLE x = Return c ∧ expand_runs c = x.
Proof.
  intros Hx. unfold compressRLE.
  case_decide as Hempty.
  - exists []. by destruct x.
  - case_decide as Hmod; [done|].
    eexists. split; [done|].
    rewrite compress_loop_spec; [done|lia|done|lia|done].
Qed.
End rle_encode.

Section rle_claims.
Implicit Types (c x : list byte) (n limit : nat).

Lemma final_writePos_min c n :
  final_writePos c n = (4 * (n / 4)) `min` length (expand_runs c).
Proof. rewrite final_writePos_spec. apply length_take. Qed.

Lemma decompressRLE_console limit c n :
  n ≤ limit →
  console (decompressRLE limit c n) =
    if decide (final_writePos c n ≠ n)
    then [WarnRLEMismatch n (final_writePos c n)] else [].
Proof. intros Hn. by rewrite decompressRLE_fits. Qed.

Lemma decompressRLE_exact limit c x :
  length x ≤ limit → length x mod 4 = 0 → expand_runs c = x →
  decompressRLE limit c (length x) = Logged [] (Return x).
Proof.
  intros Hfit Hx Hc.
  assert (Hn : 4 * (length x / 4) = length x) by lia.
  rewrite decompressRLE_fits by done.
  rewrite final_writePos_min, Hc, Hn, Nat.min_id, firstn_all, resize_all.
  by case_decide.
Qed.
End rle_claims.

(** A 2 x 2 x 2 frame of pure red is one run of 8, and a run of 300 equal
    voxels is split at [MAX_RLE_RUN]. *)
Example compressRLE_red_cube :
  compressRLE (concat (replicate 8 [Byte.x00; Byte.xff; Byte.xff; Byte.xff])) =
    Return [Byte.x08; Byte.x00; Byte.xff; Byte.xff; Byte.xff].
Proof. by vm_compute. Qed.

Example compressRLE_long_run :
  compressRLE (concat (replicate 300 [Byte.x2a; Byte.x80; Byte.xff; Byte.xff])) =
    Return [Byte.xff; Byte.x2a; Byte.x80; Byte.xff; Byte.xff;
            Byte.x2d; Byte.x2a; Byte.x80; Byte.xff; Byte.xff].
Proof. by vm_compute. Qed.

(** A stream cut in the middle of a run, and a length that is not whole
    voxels: the rest of the buffer stays zero and a warning is logged. *)
Example decompressRLE_truncated :
  decompressRLE 1024 [Byte.x02; Byte.x01; Byte.x02; Byte.x03; Byte.x04;
                      Byte.x01; Byte.x09; Byte.x08] 14 =
    Logged [WarnRLEMismatch 14 12]
      (Return
         [Byte.x01; Byte.x02; Byte.x03; Byte.x04; Byte.x01; Byte.x02; Byte.x03; Byte.x04;
          Byte.x09; Byte.x08; Byte.x00; Byte.x00; Byte.x00; Byte.x00]).
Proof. by vm_compute. Qed.

(** C2. Run-length round trip: for every byte sequence [x] whose length is
    a positive multiple of 4, [compressRLE x] returns a stream [c], and
    [decompressRLE c (length x)] returns [x] byte for byte (and logs no
    mismatch). [x] is an array the host holds: its length is within the
    host's limit. *)
Theorem rle_roundtrip (limit : nat) (x : list byte) :
  0 < length x → length x mod 4 = 0 → length x ≤ limit →
  ∃ c, compressRLE x = Return c
       ∧ decompressRLE limit c (length x) = Logged [] (Return x).
Proof.
  intros _ Hx Hfit. destruct (compressRLE_spec x Hx) as (c & Hc & Hexp).
  exists c. split; [done|]. by apply decompressRLE_exact.
Qed.

Lemma rle_roundtrip_witness :
  let x := [Byte.x00; Byte.xff; Byte.xff; Byte.xff; Byte.x00; Byte.xff; Byte.xff; Byte.xff;
            Byte.x07; Byte.x80; Byte.x80; Byte.xff] in
  (0 < length x ∧ length x mod 4 = 0 ∧ length x ≤ 1024) ∧
  ∃ c, compressRLE x = Return c
       ∧ decompressRLE 1024 c (length x) = Logged [] (Return x).
Proof.
  intros x.
  assert (H1 : 0 < length x) by (simpl; lia).
  assert (H2 : length x mod 4 = 0) by reflexivity.
  assert (H3 : length x ≤ 1024) by (simpl; lia).
  split; [exact (conj H1 (conj H2 H3))|].
  exact (rle_roundtrip 1024 x H1 H2 H3).
Defined.

(** C10, as stated, fails: not every [expectedLength] gives a buffer. The
    first statement of [decompressRLE] creates a typed array of that
    length, and throws a RangeError when the length is beyond what the host
    creates, whatever the input. *)
Lemma decompressRLE_throws_RangeError :
  decompressRLE 4096 [] 4097 =
    Logged [] (Throw "Invalid typed array length: 4097")
  ∧ ∀ (limit : nat) (compressedData : list byte),
      ∃ e, decompressRLE limit compressedData (S limit) = Logged [] (Throw e).
Proof.
  split; [by vm_compute|].
  intros limit compressedData. eexists. apply decompressRLE_oversized. lia.
Qed.

(** C10, amended. [decompressRLE] returns exactly when the host can create
    a buffer of [expectedLength] bytes. It then returns, for every input
    stream (also truncated, malformed or empty), a buffer of exactly
    [expectedLength] bytes: the first [written] bytes of the decoded runs
    followed by zeros, where [written] is the whole number of voxels that
    fit in [expectedLength] or are available, so a short input is
    zero-padded and a long one is cut at [expectedLength]. *)
Theorem decompressRLE_total (limit : nat) (compressedData : list byte)
    (expectedLength : nat) :
  let written := (4 * (expectedLength / 4)) `min` length (expand_runs compressedData) in
  ((∃ out, value (decompressRLE limit compressedData expectedLength) = Return out)
   ↔ expectedLength ≤ limit)
  ∧ ∀ out, value (decompressRLE limit compressedData expectedLength) = Return out →
      length out = expectedLength
      ∧ written ≤ expectedLength
      ∧ out = take written (expand_runs compressedData)
                ++ replicate (expectedLength - written) Byte.x00.
Proof.
  intros written.
  destruct (decide (expectedLength ≤ limit)) as [Hfit|Hover].
  - rewrite decompressRLE_value by done. split; [split; [done|by eexists]|].
    intros out <-%Return_inj. split_and!.
    + apply length_resize.
    + unfold written. lia.
    + rewrite resize_ge by (rewrite length_take; lia).
      rewrite length_take. fold written. f_equal.
      unfold written. rewrite <- take_take. by rewrite firstn_all.
  - rewrite decompressRLE_oversized by lia. cbn [value].
    split; [split; [by intros [out ?]|intros; lia]|done].
Qed.

(** C6, as stated, fails: a call that produces too few bytes returns
    normally, and returns exactly what a call with no mismatch returns;
    nothing in the result tells the two apart. *)
Lemma decompressRLE_mismatch_silent :
  let run := [Byte.x01; Byte.x00; Byte.x00; Byte.x00; Byte.x00] in
  let zeros := [Byte.x00; Byte.x00; Byte.x00; Byte.x00] in
  final_writePos [] 4 ≠ 4
  ∧ final_writePos run 4 = 4
  ∧ decompressRLE 1024 [] 4 = Logged [WarnRLEMismatch 4 0] (Return zeros)
  ∧ decompressRLE 1024 run 4 = Logged [] (Return zeros).
Proof. split_and!; by vm_compute. Qed.

(** C6, amended. For an [expectedLength] the host can allocate,
    [decompressRLE] never produces more than [expectedLength] bytes. It
    produces fewer exactly when the decoded runs are shorter than
    [expectedLength] or [expectedLength] is not a multiple of 4; it then
    logs one console warning naming both lengths. In every case it returns
    normally the bytes produced followed by zeros, [expectedLength] bytes
    in all. *)
Theorem decompressRLE_mismatch_warns (limit : nat) (compressedData : list byte)
    (expectedLength : nat) :
  expectedLength ≤ limit →
  let written := final_writePos compressedData expectedLength in
  let produced := take written (expand_runs compressedData) in
  written ≤ expectedLength
  ∧ length produced = written
  ∧ (written ≠ expectedLength ↔
       length (expand_runs compressedData) < expectedLength ∨ expectedLength mod 4 ≠ 0)
  ∧ decompressRLE limit compressedData expectedLength =
      Logged (if decide (written ≠ expectedLength)
              then [WarnRLEMismatch expectedLength written] else [])
             (Return (produced ++ replicate (expectedLength - written) Byte.x00)).
Proof.
  intros Hfit written produced. subst produced written.
  rewrite decompressRLE_fits by done.
  rewrite final_writePos_min.
  set (written := (4 * (expectedLength / 4)) `min` length (expand_runs compressedData)).
  split_and!; [lia|rewrite length_take; lia|lia|].
  f_equal. f_equal.
  rewrite resize_ge by (rewrite length_take; lia).
  rewrite length_take. fold written. f_equal.
  unfold written. rewrite <- take_take. by rewrite firstn_all.
Qed.

Lemma decompressRLE_mismatch_warns_witness :
  let c := [Byte.x02; Byte.x01; Byte.x02; Byte.x03; Byte.x04; Byte.x01; Byte.x09; Byte.x08] in
  14 ≤ 1024
  ∧ let written := final_writePos c 14 in
    let produced := take written (expand_runs c) in
    written ≤ 14
    ∧ length produced = written
    ∧ (written ≠ 14 ↔ length (expand_runs c) < 14 ∨ 14 mod 4 ≠ 0)
    ∧ decompressRLE 1024 c 14 =
        Logged (if decide (written ≠ 14) then [WarnRLEMismatch 14 written] else [])
               (Return (produced ++ replicate (14 - written) Byte.x00)).
Proof.
  intros c. assert (H : 14 ≤ 1024) by lia.
  split; [exact H|]. exact (decompressRLE_mismatch_warns 1024 c 14 H).
Defined.

(** ** Header *)

Section header.
Implicit Types (o : Options.t) (rest : list byte).

(** The 28 bytes that [createHologlyphHeader] leaves in its buffer. *)
Lemma createHologlyphHeader_bytes o :
  createHologlyphHeader o =
    [Byte.x48; Byte.x47; Byte.x4c; Byte.x59;
     ToUint8 HOLOGLYPH_VERSION; ToUint8 28;
     ToUint8 (if Options.loop o then Z.lor 0 1 else 0);
     ToUint8 (Options.bytesPerVoxel o);
     ToUint8 (Options.width o); ToUint8 (Options.height o);
     ToUint8 (Options.depth o); ToUint8 (Options.colorModel o);
     ToUint8 (Options.frameCount o mod 2 ^ 32);
     ToUint8 (Options.frameCount o mod 2 ^ 32 / 2 ^ 8);
     ToUint8 (Options.frameCount o mod 2 ^ 32 / 2 ^ 16);
     ToUint8 (Options.frameCount o mod 2 ^ 32 / 2 ^ 24);
     ToUint8 (Options.frameDurationMs o mod 2 ^ 32);
     ToUint8 (Options.frameDurationMs o mod 2 ^ 32 / 2 ^ 8);
     ToUint8 (Options.frameDurationMs o mod 2 ^ 32 / 2 ^ 16);
     ToUint8 (Options.frameDurationMs o mod 2 ^ 32 / 2 ^ 24);
     Byte.x00; Byte.x00; Byte.x00;
     ToUint8 (Options.compressionType o);
     ToUint8 (Options.loopStartFrame o mod 2 ^ 32);
     ToUint8 (Options.loopStartFrame o mod 2 ^ 32 / 2 ^ 8);
     ToUint8 (Options.loopStartFrame o mod 2 ^ 32 / 2 ^ 16);
     ToUint8 (Options.loopStartFrame o mod 2 ^ 32 / 2 ^ 24)].
Proof. reflexivity. Qed.

Lemma length_createHologlyphHeader o : length (createHologlyphHeader o) = 28.
Proof. by rewrite createHologlyphHeader_bytes. Qed.

Lemma getUint32_le_bytes (v : Z) (u8 : list byte) (offset : nat) :
  u8 !!! offset = ToUint8 (v mod 2 ^ 32) →
  u8 !!! (offset + 1) = ToUint8 (v mod 2 ^ 32 / 2 ^ 8) →
  u8 !!! (offset + 2) = ToUint8 (v mod 2 ^ 32 / 2 ^ 16) →
  u8 !!! (offset + 3) = ToUint8 (v mod 2 ^ 32 / 2 ^ 24) →
  getUint32_le u8 offset = (v mod 2 ^ 32)%Z.
Proof.
  intros H0 H1 H2 H3. unfold getUint32_le, get_u8.
  rewrite H0, H1, H2, H3, !byte_to_Z_ToUint8. lia.
Qed.

(** Parsing what was built gives back the options, each reduced to the
    width of its slot; the payload that follows plays no part. *)
Lemma parse_create o rest :
  parseHologlyphHeader (createHologlyphHeader o ++ rest) =
    Return (Header.of_options (Options.wrap o)).
Proof.
  unfold parseHologlyphHeader.
  case_decide as Hlen.
  { rewrite length_app, length_createHologlyphHeader in Hlen. lia. }
  rewrite createHologlyphHeader_bytes.
  case_decide as Hmagic; [by exfalso; apply Hmagic|].
  f_equal. unfold Header.of_options, Options.wrap; cbn [Options.width
    Options.height Options.depth Options.frameCount Options.frameDurationMs
    Options.loop Options.loopStartFrame Options.bytesPerVoxel
    Options.colorModel Options.compressionType].
  rewrite (getUint32_le_bytes (Options.frameCount o) _ 12),
    (getUint32_le_bytes (Options.frameDurationMs o) _ 16),
    (getUint32_le_bytes (Options.loopStartFrame o) _ 24) by done.
  unfold get_u8. cbn [app lookup_total list_lookup_total].
  rewrite !byte_to_Z_ToUint8.
  f_equal.
  - by destruct (Options.loop o).
  - case_decide as Hc; [by rewrite Hc|done].
Qed.

Lemma wrap_valid o : Options.valid o → Options.wrap o = o.
Proof.
  destruct o. unfold Options.valid, Options.wrap. simpl.
  intros (?&?&?&?&?&?&?&?&?).
  rewrite !Z.mod_small by lia. done.
Qed.

Lemma ToUint8_mod (z : Z) : ToUint8 (z mod 256) = ToUint8 z.
Proof. unfold ToUint8. by rewrite Z.mod_mod. Qed.

Lemma createHologlyphHeader_wrap o :
  createHologlyphHeader (Options.wrap o) = createHologlyphHeader o.
Proof.
  rewrite !createHologlyphHeader_bytes. destruct o. simpl.
  rewrite !ToUint8_mod, !Z.mod_mod by lia. done.
Qed.

Lemma createHologlyphHeader_with_compressionType c o :
  createHologlyphHeader (Options.with_compressionType c o) =
    <[23 := ToUint8 c]> (createHologlyphHeader o).
Proof. by rewrite !createHologlyphHeader_bytes. Qed.

Lemma options_of_header_of_options o c :
  options_of_header (Header.of_options o) c = Options.with_compressionType c o.
Proof. done. Qed.

Lemma wrap_with_compressionType c o :
  Options.wrap (Options.with_compressionType c (Options.wrap o)) =
    Options.with_compressionType (c mod 256) (Options.wrap o).
Proof.
  destruct o. unfold Options.wrap, Options.with_compressionType. simpl.
  rewrite !Z.mod_mod by lia. done.
Qed.

(** The four bytes a buffer must start with. *)
Lemma magic_bytes (b0 b1 b2 b3 : byte) :
  (fromCharCode (Some b0) ++ fromCharCode (Some b1) ++
   fromCharCode (Some b2) ++ fromCharCode (Some b3))%string = HOLOGLYPH_MAGIC
  ↔ [b0; b1; b2; b3] = list_byte_of_string HOLOGLYPH_MAGIC.
Proof.
  split.
  - intros H. injection H as H0 H1 H2 H3.
    apply (f_equal byte_of_ascii) in H0, H1, H2, H3.
    rewrite byte_of_ascii_of_byte in H0, H1, H2, H3.
    simpl in *. by subst.
  - intros H. injection H as -> -> -> ->. done.
Qed.
End header.

(** Outside the width of its slot a field is stored reduced: a frame count
    of 2^32 is read back as 0, a width of 256 as 0. *)
Example createHologlyphHeader_wraps :
  parseHologlyphHeader
    (createHologlyphHeader (Options.Build 256 1 1 (2 ^ 32) 100 true 0 4 0 0)) =
    Return (Header.of_options (Options.Build 0 1 1 0 100 true 0 4 0 0)).
Proof. by vm_compute. Qed.

(** C3. Header round trip: for options whose fields are all in their valid
    ranges, parsing the header built from them succeeds and gives back
    width, height, depth, frameCount, frameDurationMs, loop,
    loopStartFrame, bytesPerVoxel, colorModel and compressionType
    exactly. *)
Theorem parse_create_roundtrip (opts : Options.t) :
  Options.valid opts →
  ∃ header,
    parseHologlyphHeader (createHologlyphHeader opts) = Return header
    ∧ Header.width header = Options.width opts
    ∧ Header.height header = Options.height opts
    ∧ Header.depth header = Options.depth opts
    ∧ Header.frameCount header = Options.frameCount opts
    ∧ Header.frameDurationMs header = Options.frameDurationMs opts
    ∧ Header.loop header = Options.loop opts
    ∧ Header.loopStartFrame header = Options.loopStartFrame opts
    ∧ Header.bytesPerVoxel header = Options.bytesPerVoxel opts
    ∧ Header.colorModel header = Options.colorModel opts
    ∧ Header.compressionType header = Options.compressionType opts.
Proof.
  intros Hvalid. exists (Header.of_options opts). split.
  - rewrite <- (app_nil_r (createHologlyphHeader opts)).
    by rewrite parse_create, wrap_valid.
  - by repeat split.
Qed.

Lemma parse_create_roundtrip_witness :
  let opts := Options.Build 16 12 8 10 40 false 3 4 0 1 in
  Options.valid opts ∧
  ∃ header,
    parseHologlyphHeader (createHologlyphHeader opts) = Return header
    ∧ Header.width header = Options.width opts
    ∧ Header.height header = Options.height opts
    ∧ Header.depth header = Options.depth opts
    ∧ Header.frameCount header = Options.frameCount opts
    ∧ Header.frameDurationMs header = Options.frameDurationMs opts
    ∧ Header.loop header = Options.loop opts
    ∧ Header.loopStartFrame header = Options.loopStartFrame opts
    ∧ Header.bytesPerVoxel header = Options.bytesPerVoxel opts
    ∧ Header.colorModel header = Options.colorModel opts
    ∧ Header.compressionType header = Options.compressionType opts.
Proof.
  intros opts.
  assert (Hvalid : Options.valid opts) by (unfold Options.valid; simpl; lia).
  split; [exact Hvalid|]. apply (parse_create_roundtrip opts). exact Hvalid.
Defined.

(** C8. [parseHologlyphHeader] throws exactly when the input has fewer than
    28 bytes or does not start with the four bytes of the magic "HGLY". In
    particular a buffer of 28 bytes or more with the right magic is parsed
    whatever its version byte, also one greater than 1, and the version is
    handed back as read. *)
Theorem parse_throws_iff (u8 : list byte) :
  ((∃ e, parseHologlyphHeader u8 = Throw e)
   ↔ length u8 < 28 ∨ take 4 u8 ≠ list_byte_of_string HOLOGLYPH_MAGIC)
  ∧ (28 ≤ length u8 →
     take 4 u8 = list_byte_of_string HOLOGLYPH_MAGIC →
     (HOLOGLYPH_VERSION < get_u8 u8 4)%Z →
     ∃ header, parseHologlyphHeader u8 = Return header
               ∧ Header.version header = get_u8 u8 4).
Proof.
  unfold parseHologlyphHeader. case_decide as Hlen.
  { split; [|lia]. split; [by left | by eexists]. }
  destruct u8 as [|b0 [|b1 [|b2 [|b3 rest]]]]; simpl in Hlen; try lia.
  cbn [lookup list_lookup take].
  case_decide as Hmagic.
  - rewrite magic_bytes in Hmagic. split.
    + split; [by right | by eexists].
    + intros _ Htake. done.
  - split.
    + split.
      * by intros [e ?].
      * intros [?|Hne]; [done|]. by rewrite magic_bytes in Hmagic.
    + intros _ _ _. by eexists.
Qed.

Lemma parse_throws_iff_witness :
  let u8 := <[4 := Byte.x02]> (createHologlyphHeader Options.defaults) in
  (28 ≤ length u8
   ∧ take 4 u8 = list_byte_of_string HOLOGLYPH_MAGIC
   ∧ (HOLOGLYPH_VERSION < get_u8 u8 4)%Z)
  ∧ ∃ header, parseHologlyphHeader u8 = Return header
              ∧ Header.version header = get_u8 u8 4.
Proof.
  intros u8.
  assert (H1 : 28 ≤ length u8) by (vm_compute; lia).
  assert (H2 : take 4 u8 = list_byte_of_string HOLOGLYPH_MAGIC) by reflexivity.
  assert (H3 : (HOLOGLYPH_VERSION < get_u8 u8 4)%Z) by reflexivity.
  split; [done|]. exact (proj2 (parse_throws_iff u8) H1 H2 H3).
Defined.

(** ** Whole-file compression *)

Section glyf_file.
Implicit Types (o : Options.t) (payload c : list byte) (limit : nat).

Lemma drop_header o payload : drop 28 (createHologlyphHeader o ++ payload) = payload.
Proof. apply drop_app_length'. by rewrite length_createHologlyphHeader. Qed.

(** Compressing an uncompressed file whose payload is whole voxels: the
    header is rebuilt with the RLE flag, the payload replaced by a stream
    that denotes it. *)
Lemma compressGlyfFile_uncompressed o payload :
  Options.compressionType o = COMPRESSION_TYPE.NONE →
  length payload mod 4 = 0 →
  ∃ c, expand_runs c = payload ∧
       compressGlyfFile (createHologlyphHeader o ++ payload) =
         Logged [] (Return (createHologlyphHeader
                              (Options.with_compressionType COMPRESSION_TYPE.RLE
                                 (Options.wrap o)) ++ c)).
Proof.
  intros Hnone Hlen.
  destruct (compressRLE_spec payload Hlen) as (c & Hc & Hexp).
  exists c. split; [done|].
  unfold compressGlyfFile. rewrite parse_create.
  case_decide as Hct.
  { exfalso. apply Hct. simpl. by rewrite Hnone. }
  by rewrite drop_header, Hc, options_of_header_of_options.
Qed.

(** Decompressing a file flagged RLE whose stream denotes exactly the
    declared number of bytes. *)
Lemma decompressGlyfFile_rle limit o c payload :
  Options.compressionType o = COMPRESSION_TYPE.NONE →
  expand_runs c = payload →
  length payload mod 4 = 0 →
  Z.of_nat (length payload) =
    (Header.frameSizeBytes (Header.of_options (Options.wrap o))
     * Header.frameCount (Header.of_options (Options.wrap o)))%Z →
  length payload ≤ limit →
  decompressGlyfFile limit
    (createHologlyphHeader
       (Options.with_compressionType COMPRESSION_TYPE.RLE (Options.wrap o)) ++ c) =
    Logged [] (Return (createHologlyphHeader o ++ payload)).
Proof.
  intros Hnone Hexp Hmod Hlen Hfit.
  unfold decompressGlyfFile.
  rewrite parse_create, wrap_with_compressionType.
  change (COMPRESSION_TYPE.RLE mod 256)%Z with COMPRESSION_TYPE.RLE.
  case_decide as H0; [done|]. case_decide as H1; [|done].
  rewrite drop_header. cbv zeta.
  replace (Header.frameSizeBytes _ * Header.frameCount _)%Z
    with (Z.of_nat (length payload)) by (rewrite Hlen; done).
  rewrite Nat2Z.id, (decompressRLE_exact limit c payload) by done.
  cbn [console value].
  rewrite options_of_header_of_options.
  replace (Options.with_compressionType COMPRESSION_TYPE.NONE
             (Options.with_compressionType COMPRESSION_TYPE.RLE (Options.wrap o)))
    with (Options.wrap o).
  - by rewrite createHologlyphHeader_wrap.
  - destruct o. simpl in Hnone. subst. done.
Qed.
End glyf_file.

(** C1, as stated, fails: the payload of a file built by
    [createHologlyphHeader] has [frameSizeBytes * frameCount] bytes, which
    need not be a multiple of 4 when [bytesPerVoxel] is not 4, and then
    [compressGlyfFile] throws. Here one voxel of 5 bytes. *)
Lemma glyf_roundtrip_partial_voxel :
  let opts := Options.Build 1 1 1 1 100 true 0 5 0 COMPRESSION_TYPE.NONE in
  let payload := [Byte.x01; Byte.x02; Byte.x03; Byte.x04; Byte.x05] in
  let x := createHologlyphHeader opts ++ payload in
  (∃ header, parseHologlyphHeader x = Return header
             ∧ Header.compressionType header = COMPRESSION_TYPE.NONE
             ∧ Z.of_nat (length payload) =
                 (Header.frameSizeBytes header * Header.frameCount header)%Z)
  ∧ compressGlyfFile x = Logged [] (Throw "Voxel data must be multiple of 4 bytes").
Proof.
  intros opts payload x. split.
  - eexists. split; [by vm_compute|]. by vm_compute.
  - by vm_compute.
Qed.

(** C1, amended. For every uncompressed .glyf buffer [x] (a header built by
    [createHologlyphHeader] with compression type NONE, then a payload of
    exactly [frameSizeBytes * frameCount] bytes) whose payload is a whole
    number of 4-byte voxels, as it is whenever [bytesPerVoxel] is 4:
    [compressGlyfFile x] returns a buffer [y], [decompressGlyfFile y] returns
    [x] byte for byte, and the header of [y] differs from that of [x] in
    byte 23 only, the compression type, RLE in [y] and NONE in [x]. The
    payload is an array the host holds: its length is within the host's
    limit. *)
Theorem glyf_file_roundtrip (limit : nat) (opts : Options.t) (payload : list byte)
    (header : Header.t) :
  let x := createHologlyphHeader opts ++ payload in
  Options.compressionType opts = COMPRESSION_TYPE.NONE →
  parseHologlyphHeader x = Return header →
  Z.of_nat (length payload) = (Header.frameSizeBytes header * Header.frameCount header)%Z →
  length payload mod 4 = 0 →
  length payload ≤ limit →
  ∃ y, compressGlyfFile x = Logged [] (Return y)
       ∧ decompressGlyfFile limit y = Logged [] (Return x)
       ∧ (∀ i, i < 28 → i ≠ 23 → y !! i = x !! i)
       ∧ y !! 23 = Some (ToUint8 COMPRESSION_TYPE.RLE)
       ∧ x !! 23 = Some (ToUint8 COMPRESSION_TYPE.NONE).
Proof.
  intros x Hnone Hparse Hlen Hmod Hfit. subst x.
  rewrite parse_create in Hparse. injection Hparse as <-.
  destruct (compressGlyfFile_uncompressed opts payload Hnone Hmod)
    as (c & Hexp & Hcompress).
  eexists. split; [exact Hcompress|]. split_and!.
  - by apply decompressGlyfFile_rle.
  - intros i Hi Hne.
    rewrite !lookup_app_l by (rewrite length_createHologlyphHeader; lia).
    rewrite createHologlyphHeader_with_compressionType, createHologlyphHeader_wrap.
    by rewrite list_lookup_insert_ne.
  - rewrite lookup_app_l by (rewrite length_createHologlyphHeader; lia).
    rewrite createHologlyphHeader_with_compressionType.
    apply list_lookup_insert_eq. rewrite length_createHologlyphHeader. lia.
  - rewrite lookup_app_l by (rewrite length_createHologlyphHeader; lia).
    rewrite createHologlyphHeader_bytes, Hnone. done.
Qed.

Lemma glyf_file_roundtrip_witness :
  let opts := Options.Build 2 1 1 2 100 true 0 4 0 COMPRESSION_TYPE.NONE in
  let payload := [Byte.x00; Byte.xff; Byte.xff; Byte.xff; Byte.x00; Byte.xff; Byte.xff; Byte.xff;
                  Byte.x00; Byte.xff; Byte.xff; Byte.xff; Byte.x2a; Byte.x80; Byte.xff; Byte.x00] in
  let header := Header.of_options opts in
  let x := createHologlyphHeader opts ++ payload in
  (Options.compressionType opts = COMPRESSION_TYPE.NONE
   ∧ parseHologlyphHeader x = Return header
   ∧ Z.of_nat (length payload) = (Header.frameSizeBytes header * Header.frameCount header)%Z
   ∧ length payload mod 4 = 0
   ∧ length payload ≤ 1024)
  ∧ ∃ y, compressGlyfFile x = Logged [] (Return y)
         ∧ decompressGlyfFile 1024 y = Logged [] (Return x)
         ∧ (∀ i, i < 28 → i ≠ 23 → y !! i = x !! i)
         ∧ y !! 23 = Some (ToUint8 COMPRESSION_TYPE.RLE)
         ∧ x !! 23 = Some (ToUint8 COMPRESSION_TYPE.NONE).
Proof.
  intros opts payload header x.
  assert (H1 : Options.compressionType opts = COMPRESSION_TYPE.NONE) by reflexivity.
  assert (H2 : parseHologlyphHeader x = Return header) by reflexivity.
  assert (H3 : Z.of_nat (length payload)
               = (Header.frameSizeBytes header * Header.frameCount header)%Z)
    by reflexivity.
  assert (H4 : length payload mod 4 = 0) by reflexivity.
  assert (H5 : length payload ≤ 1024) by (simpl; lia).
  split; [exact (conj H1 (conj H2 (conj H3 (conj H4 H5))))|].
  exact (glyf_file_roundtrip 1024 opts payload header H1 H2 H3 H4 H5).
Defined.

(** ** HSBA pixel codec *)

Section pixel.
Implicit Types (p b : Z).

Lemma clamp_id (v lo hi : Q) : (lo <= v)%Q → (v <= hi)%Q → clamp v lo hi == v.
Proof.
  intros Hlo Hhi. unfold clamp.
  transitivity (Qmax v lo); [apply Q.min_l | apply Q.max_l; done].
  setoid_rewrite (Q.max_l v lo Hlo). done.
Qed.

(** On whole percentages [percentToByte] is [round(2.55 p)], halves up. *)
Lemma percentToByte_int p :
  (0 ≤ p ≤ 100)%Z → percentToByte (inject_Z p) = ((51 * p + 10) / 20)%Z.
Proof.
  intros Hp. unfold percentToByte, Math_round.
  transitivity (Qfloor ((51 * p + 10) # 20)); [|done].
  apply Qfloor_comp.
  setoid_rewrite (clamp_id (inject_Z p) 0 100).
  - unfold Qeq. simpl. lia.
  - unfold Qle. simpl. lia.
  - unfold Qle. simpl. lia.
Qed.

(** On bytes [byteToPercent] is [round(b / 2.55)]. *)
Lemma byteToPercent_int b :
  (0 ≤ b ≤ 255)%Z → byteToPercent (inject_Z b) = ((40 * b + 51) / 102)%Z.
Proof.
  intros Hb. unfold byteToPercent, Math_round.
  transitivity (Qfloor ((40 * b + 51) # 102)); [|done].
  apply Qfloor_comp.
  setoid_rewrite (clamp_id (inject_Z b) 0 255).
  - unfold Qeq. simpl. lia.
  - unfold Qle. simpl. lia.
  - unfold Qle. simpl. lia.
Qed.

Lemma percentToByte_range p : (0 ≤ p ≤ 100)%Z → (0 ≤ percentToByte (inject_Z p) ≤ 255)%Z.
Proof. intros Hp. rewrite percentToByte_int by done. lia. Qed.

(** The quantisation loses nothing on whole percentages. *)
Lemma percent_byte_percent p :
  (0 ≤ p ≤ 100)%Z → byteToPercent (inject_Z (percentToByte (inject_Z p))) = p.
Proof.
  intros Hp. pose proof (percentToByte_range p Hp).
  rewrite byteToPercent_int by done. rewrite percentToByte_int by done. lia.
Qed.

Lemma decode_encode_s (h : Q) p :
  (0 ≤ p ≤ 100)%Z →
  HSBAUtil.s (HSBAUtil.decodePixel
                (HSBAUtil.encodePixel
                   (HSBAUtil.Color h (inject_Z p) (inject_Z p) (inject_Z p)))) =
    inject_Z (byteToPercent (inject_Z (percentToByte (inject_Z p)))).
Proof.
  intros Hp. pose proof (percentToByte_range p Hp).
  unfold HSBAUtil.decodePixel, HSBAUtil.encodePixel, number_or_0.
  cbn [HSBAUtil.s lookup list_lookup store_u8 default from_option id].
  rewrite byte_to_Z_ToUint8, Z.mod_small by lia. done.
Qed.
End pixel.

Example encodePixel_red :
  HSBAUtil.encodePixel (HSBAUtil.Color 0 100 100 100) =
    [Byte.x00; Byte.xff; Byte.xff; Byte.xff].
Proof. by vm_compute. Qed.

(** Bytes 0 and 1 both decode to 0 percent. *)
Example byteToPercent_low :
  byteToPercent 0 = 0%Z ∧ byteToPercent 1 = 0%Z ∧ byteToPercent 2 = 1%Z.
Proof. by vm_compute. Qed.

(** C7. For every whole percentage [p] in [0, 100] the round trip
    percentage, byte, percentage, which is the [s] that [decodePixel] reads
    back from [encodePixel {h, s: p, b: p, a: p}], is monotonic in [p] and
    within 1 of [p]. *)
Theorem percent_roundtrip_within_1 (p q : Z) :
  (0 ≤ p ≤ 100)%Z → (0 ≤ q ≤ 100)%Z →
  let roundtrip v := byteToPercent (inject_Z (percentToByte (inject_Z v))) in
  ((p ≤ q)%Z → (roundtrip p ≤ roundtrip q)%Z)
  ∧ (Z.abs (roundtrip p - p) ≤ 1)%Z
  ∧ ∀ h : Q,
      HSBAUtil.s (HSBAUtil.decodePixel
                    (HSBAUtil.encodePixel
                       (HSBAUtil.Color h (inject_Z p) (inject_Z p) (inject_Z p)))) =
        inject_Z (roundtrip p).
Proof.
  intros Hp Hq roundtrip. subst roundtrip. cbv beta.
  rewrite !percent_byte_percent by done. split_and!.
  - done.
  - lia.
  - intros h. rewrite decode_encode_s by done.
    by rewrite percent_byte_percent.
Qed.

Lemma percent_roundtrip_within_1_witness :
  let roundtrip v := byteToPercent (inject_Z (percentToByte (inject_Z v))) in
  ((0 ≤ 30 ≤ 100)%Z ∧ (0 ≤ 70 ≤ 100)%Z)
  ∧ ((30 ≤ 70)%Z → (roundtrip 30%Z ≤ roundtrip 70%Z)%Z)
  ∧ (Z.abs (roundtrip 30%Z - 30) ≤ 1)%Z
  ∧ ∀ h : Q,
      HSBAUtil.s (HSBAUtil.decodePixel
                    (HSBAUtil.encodePixel
                       (HSBAUtil.Color h (inject_Z 30) (inject_Z 30) (inject_Z 30)))) =
        inject_Z (roundtrip 30%Z).
Proof.
  intros roundtrip. split; [lia|].
  apply (percent_roundtrip_within_1 30 70); lia.
Defined.

(** ** Frame clock *)

Section clock.
Import Player.
Implicit Types (p : Player.t) (fuel n m : nat).

Lemma frameDurationMs_advanceFrame p :
  frameDurationMs (_advanceFrame p) = frameDurationMs p.
Proof. unfold _advanceFrame. by repeat case_match. Qed.

Lemma accum_advanceFrame p : _accum (_advanceFrame p) = _accum p.
Proof. unfold _advanceFrame. by repeat case_match. Qed.


(** With a zero duration the loop condition [_accum >= frameDurationMs]
    stays true: the body subtracts nothing. *)
Lemma advance_due_zero_duration fuel p :
  frameDurationMs p = 0%Z → (0 <= _accum p)%Q → advance_due fuel p = None.
Proof.
  revert p. induction fuel as [|fuel IH]; intros p Hd Hacc; [done|].
  cbn [advance_due]. rewrite Hd.
  destruct (Qle_bool (inject_Z 0) (_accum p)) eqn:Hle.
  - apply IH.
    + by rewrite frameDurationMs_advanceFrame.
    + rewrite accum_advanceFrame. cbn [_accum set_accum].
      unfold inject_Z. lra.
  - exfalso. apply not_true_iff_false in Hle. apply Hle.
    by apply Qle_bool_iff.
Qed.

(** *** The scenario: 5 frames of 100 ms looping back to frame 2 *)



Lemma last_cons_default (t d : Q) (timestamps : list Q) :
  List.last (t :: timestamps) d = List.last timestamps t.
Proof.
  revert t d. induction timestamps as [|t' timestamps IH]; intros t d; [done|].
  change (List.last (t :: t' :: timestamps) d) with (List.last (t' :: timestamps) d).
  by rewrite (IH t' d), (IH t' t).
Qed.


End clock.

(** C4 fails on the code. For a playing player whose [frameDurationMs] is
    0, no amount of fuel lets one [_loop] call return: whatever the
    timestamp (not earlier than the previous one), the [while] of [_loop]
    never exits. *)
Theorem loop_zero_duration_never_returns (fuel : nat) (ts : Q) (p : Player.t) :
  Player.frameDurationMs p = 0%Z →
  Player._playing p = true →
  (0 <= Player._accum p)%Q →
  (Player._lastTs p <= ts)%Q →
  Player._loop fuel ts p = None.
Proof.
  intros Hd Hplay Hacc Hts. unfold Player._loop. rewrite Hplay. cbn [negb].
  apply advance_due_zero_duration; [done|].
  cbn [Player._accum Player.set_accum Player.set_lastTs].
  destruct (Qeq_bool (Player._lastTs p) 0); lra.
Qed.

Lemma loop_zero_duration_never_returns_witness :
  let data := createHologlyphHeader
                (Options.Build 1 1 1 2 0 true 0 4 0 COMPRESSION_TYPE.NONE)
              ++ replicate 8 Byte.xff in
  ∃ p, Player.new 1024 64 64 data true 8 false = Return p
       ∧ (Player.frameDurationMs p = 0%Z
          ∧ Player._playing p = true
          ∧ (0 <= Player._accum p)%Q
          ∧ (Player._lastTs p <= 16)%Q)
       ∧ Player._loop 1000 16 p = None.
Proof.
  intros data. eexists. split; [reflexivity|].
  match goal with |- (?A ∧ ?B ∧ ?C ∧ ?D) ∧ _ =>
    assert (H1 : A) by reflexivity; assert (H2 : B) by reflexivity;
    assert (H3 : C) by (by vm_compute); assert (H4 : D) by (by vm_compute)
  end.
  split; [done|].
  exact (loop_zero_duration_never_returns 1000 16 _ H1 H2 H3 H4).
Defined.

Section scenario.
Import Player.


Lemma last_inject_Z (t : Z) (timestamps : list Z) :
  List.last (inject_Z <$> timestamps) (inject_Z t) = inject_Z (List.last timestamps t).
Proof.
  induction timestamps as [|t' timestamps IH]; [done|].
  destruct timestamps as [|t'' timestamps]; [done|]. exact IH.
Qed.
End scenario.




(** ** Per-voxel render pass *)

Section render.
Import Player.
Context {A : Type}.
Implicit Types (f g : Z → Z → list A) (body : Z → Z * list A → Z * list A).






End render.

Example grid_cells_2_2_2 :
  Player.grid_cells 2 2 2 =
    [(0, 0, 0); (1, 0, 0); (0, 1, 0); (1, 1, 0);
     (0, 0, 1); (1, 0, 1); (0, 1, 1); (1, 1, 1)]%Z.
Proof. by vm_compute. Qed.

(** A 3 x 1 x 1 frame: full alpha with brightness 0, then alpha 0, then a
    visible voxel; only the third is drawn, at x - 3/2. *)
Example render_skips_invisible :
  let data := createHologlyphHeader
                (Options.Build 3 1 1 1 100 true 0 4 0 COMPRESSION_TYPE.NONE)
              ++ [Byte.x10; Byte.xff; Byte.x00; Byte.xff;
                  Byte.x10; Byte.xff; Byte.xff; Byte.x00;
                  Byte.x10; Byte.xff; Byte.xff; Byte.xff] in
  ∃ p, Player.new 1024 64 64 data false 8 true = Return p
       ∧ Player.render p =
           [DrawCube [1; 0; 0; 0;
                      0; 1; 0; 0;
                      0; 0; 1; 0;
                      2 - 3 / 2; 0 - 1 / 2; 0 - 1 / 2; 1]%Q
              (HSBAUtil.Color 16 100 100 100)].
Proof. intros data. eexists. split; [reflexivity|]. by vm_compute. Qed.


(** * Further properties *)

(** ** Run-length codec: the stream format *)

Section rle_format.
Import RLE.
Implicit Types (c x added : list byte) (i k m : nat).

(** The outer loop only appends whole runs; each run has a count of at
    least 1 and covers at most [MAX_RLE_RUN] voxels. *)
Lemma compress_loop_format x compressed i :
  length x mod 4 = 0 → i mod 4 = 0 → i ≤ length x →
  ∃ added,
    compress_loop x compressed i = compressed ++ added
    ∧ length added mod 5 = 0
    ∧ 4 * (length added / 5) ≤ length x - i
    ∧ length x - i ≤ 1020 * (length added / 5)
    ∧ ∀ k, 5 * k < length added →
        ∃ b, added !! (5 * k) = Some b ∧ 1 ≤ Byte.to_nat b.
Proof.
  intros Hx. remember (length x - i) as d eqn:Hd. revert compressed i Hd.
  induction d as [d IH] using lt_wf_ind. intros compressed i Hd Hi Hle.
  destruct (decide (i < length x)) as [Hlt|Hge].
  - rewrite compress_loop_step by done. cbv zeta.
    destruct (lookup_lt_is_Some_2 x i ltac:(lia)) as [h Hh].
    destruct (lookup_lt_is_Some_2 x (i + 1) ltac:(lia)) as [s Hs].
    destruct (lookup_lt_is_Some_2 x (i + 2) ltac:(lia)) as [b Hb].
    destruct (lookup_lt_is_Some_2 x (i + 3) ltac:(lia)) as [a Ha].
    rewrite Hh, Hs, Hb, Ha.
    destruct (count_run_spec x h s b a 1 (i + 4) ltac:(lia))
      as (m & Hrun & Hcount & Hend & _).
    rewrite Hrun. cbn [fst snd store_u8 default from_option id].
    unfold MAX_RLE_RUN in Hcount.
    set (run5 := [ToUint8 (Z.of_nat (1 + m)); h; s; b; a]).
    destruct (IH (length x - (i + 4 + 4 * m)) ltac:(lia) (compressed ++ run5)
                (i + 4 + 4 * m) eq_refl ltac:(lia) ltac:(lia))
      as (added & Heq & Hmod & Hlo & Hhi & Hcounts).
    exists (run5 ++ added). rewrite Heq, <- app_assoc.
    rewrite length_app. cbn [run5 length].
    split_and!; [done|lia|lia|lia|].
    intros k Hk. destruct k as [|k].
    + exists (ToUint8 (Z.of_nat (1 + m))). split; [done|].
      rewrite to_nat_ToUint8 by lia. lia.
    + destruct (Hcounts k ltac:(lia)) as (c0 & Hc0 & Hpos).
      exists c0. split; [|done].
      replace (5 * S k) with (length run5 + 5 * k) by (cbn [run5 length]; lia).
      by rewrite lookup_app_r, Nat.add_comm, Nat.add_sub by lia.
  - rewrite compress_loop_exit by done.
    exists []. rewrite app_nil_r. split_and!; [done|done|simpl; lia|simpl; lia|].
    intros k Hk. simpl in Hk. lia.
Qed.

Lemma compressRLE_Return x c :
  compressRLE x = Return c → length x mod 4 = 0 ∧ expand_runs c = x.
Proof.
  intros Hc.
  assert (Hx : length x mod 4 = 0).
  { unfold compressRLE in Hc. repeat case_decide; try done; lia. }
  split; [done|].
  destruct (compressRLE_spec x Hx) as (c' & Hc' & Hexp). congruence.
Qed.
End rle_format.

(** X1. [compressRLE] returns exactly on data made of whole 4-byte voxels.
    What it returns is a whole number of 5-byte runs, each with a count of
    at least 1; there are at most as many runs as voxels and at least one
    run per 255 voxels, so the stream is at most 5/4 of the size of the
    data and at least 5/1020 of it. *)
Theorem compressRLE_format (x : list byte) :
  ((∃ c, compressRLE x = Return c) ↔ length x mod 4 = 0)
  ∧ ∀ c, compressRLE x = Return c →
      length c mod 5 = 0
      ∧ 4 * (length c / 5) ≤ length x
      ∧ length x ≤ 4 * MAX_RLE_RUN * (length c / 5)
      ∧ ∀ k, 5 * k < length c →
          ∃ count, c !! (5 * k) = Some count ∧ 1 ≤ Byte.to_nat count.
Proof.
  split.
  - split.
    + intros [c Hc]. by apply compressRLE_Return in Hc as [? _].
    + intros Hx. destruct (compressRLE_spec x Hx) as (c & Hc & _). by exists c.
  - intros c Hc. pose proof (compressRLE_Return x c Hc) as [Hx _].
    unfold compressRLE in Hc. case_decide as Hempty.
    + injection Hc as <-. destruct x; [|done].
      split_and!; [done|simpl; lia|simpl; lia|].
      intros k Hk. simpl in Hk. lia.
    + case_decide; [done|]. injection Hc as <-.
      destruct (compress_loop_format x [] 0 Hx eq_refl ltac:(lia))
        as (added & -> & Hmod & Hlo & Hhi & Hcounts).
      cbn [app]. unfold MAX_RLE_RUN. split_and!; [done|lia|lia|done].
Qed.

Lemma compressRLE_format_witness :
  let x := concat (replicate 300 [Byte.x2a; Byte.x80; Byte.xff; Byte.xff]) in
  let c := [Byte.xff; Byte.x2a; Byte.x80; Byte.xff; Byte.xff;
            Byte.x2d; Byte.x2a; Byte.x80; Byte.xff; Byte.xff] in
  compressRLE x = Return c
  ∧ length c mod 5 = 0
  ∧ 4 * (length c / 5) ≤ length x
  ∧ length x ≤ 4 * MAX_RLE_RUN * (length c / 5)
  ∧ ∀ k, 5 * k < length c →
      ∃ count, c !! (5 * k) = Some count ∧ 1 ≤ Byte.to_nat count.
Proof.
  intros x c. assert (Hc : compressRLE x = Return c) by (by vm_compute).
  split; [exact Hc|]. exact (proj2 (compressRLE_format x) c Hc).
Defined.

(** X2. Decompressing what [compressRLE] returned, with an expected
    length [n] of any size. When the host can create a buffer of [n]
    bytes, the result is the data cut to the whole voxels that fit in [n]
    bytes, then padded with zeros to [n] bytes, and no warning is logged
    exactly when [n] is a multiple of 4 not longer than the data. When it
    cannot, the call throws the RangeError of the allocation and logs
    nothing. *)
Theorem decompress_compress_any_length (limit : nat) (x c : list byte) (n : nat) :
  compressRLE x = Return c →
  (n ≤ limit →
     value (decompressRLE limit c n) = Return (resize n Byte.x00 (take (4 * (n / 4)) x))
     ∧ (console (decompressRLE limit c n) = [] ↔ n mod 4 = 0 ∧ n ≤ length x))
  ∧ (limit < n → ∃ e, decompressRLE limit c n = Logged [] (Throw e)).
Proof.
  intros Hc. apply compressRLE_Return in Hc as [Hx Hexp]. split.
  - intros Hfit.
    rewrite decompressRLE_value, decompressRLE_console, final_writePos_min, Hexp by done.
    split; [done|]. case_decide; split; try done; lia.
  - intros Hover. eexists. by apply decompressRLE_oversized.
Qed.

Lemma decompress_compress_any_length_witness :
  let x := [Byte.x01; Byte.x02; Byte.x03; Byte.x04; Byte.x01; Byte.x02; Byte.x03; Byte.x04] in
  let c := [Byte.x02; Byte.x01; Byte.x02; Byte.x03; Byte.x04] in
  compressRLE x = Return c
  ∧ (6 ≤ 1024 →
       value (decompressRLE 1024 c 6) = Return (resize 6 Byte.x00 (take (4 * (6 / 4)) x))
       ∧ (console (decompressRLE 1024 c 6) = [] ↔ 6 mod 4 = 0 ∧ 6 ≤ length x))
  ∧ (1024 < 6 → ∃ e, decompressRLE 1024 c 6 = Logged [] (Throw e)).
Proof.
  intros x c. assert (Hc : compressRLE x = Return c) by (by vm_compute).
  split; [exact Hc|]. exact (decompress_compress_any_length 1024 x c 6 Hc).
Defined.

(** X3. Once whole runs have produced the expected length, whatever
    follows them in the stream is not looked at: for a stream [c] of whole
    runs that decodes to at least [n] bytes, [n] a multiple of 4, any
    bytes appended to [c] change neither the result nor the log. *)
Theorem decompressRLE_ignores_rest (limit : nat) (c rest : list byte) (n : nat) :
  length c mod 5 = 0 → n mod 4 = 0 → n ≤ length (expand_runs c) →
  decompressRLE limit (c ++ rest) n = decompressRLE limit c n.
Proof.
  intros Hc Hn Hlen.
  assert (Hexp : take (4 * (n / 4)) (expand_runs (c ++ rest))
                 = take (4 * (n / 4)) (expand_runs c)).
  { rewrite (expand_runs_app (length c / 5)) by lia.
    apply take_app_le. lia. }
  destruct (decide (n ≤ limit)) as [Hfit|Hover].
  - by rewrite !decompressRLE_fits, !final_writePos_spec, Hexp by done.
  - by rewrite !decompressRLE_oversized by lia.
Qed.

Lemma decompressRLE_ignores_rest_witness :
  let c := [Byte.x02; Byte.x01; Byte.x02; Byte.x03; Byte.x04] in
  let rest := [Byte.x07; Byte.x09] in
  (length c mod 5 = 0 ∧ 8 mod 4 = 0 ∧ 8 ≤ length (expand_runs c))
  ∧ decompressRLE 1024 (c ++ rest) 8 = decompressRLE 1024 c 8.
Proof.
  intros c rest.
  assert (H1 : length c mod 5 = 0) by reflexivity.
  assert (H2 : 8 mod 4 = 0) by reflexivity.
  assert (H3 : 8 ≤ length (expand_runs c)) by (vm_compute; lia).
  split; [exact (conj H1 (conj H2 H3))|].
  exact (decompressRLE_ignores_rest 1024 c rest 8 H1 H2 H3).
Defined.

(** ** Run-length codec: runs are as long as they can be *)

Section rle_greedy.
Import RLE.
Implicit Types (c x added : list byte) (i j k m count : nat).

(** Why the inner loop stops: the run is full, the data is exhausted, or
    the next voxel differs. *)
Lemma count_run_stop x (h s b a : byte) count j :
  count ≤ MAX_RLE_RUN →
  let r := count_run x (Some h) (Some s) (Some b) (Some a) count j in
  r.1 = MAX_RLE_RUN ∨ length x ≤ r.2
  ∨ ¬ (x !! r.2 = Some h ∧ x !! (r.2 + 1) = Some s ∧
       x !! (r.2 + 2) = Some b ∧ x !! (r.2 + 3) = Some a).
Proof.
  remember (length x - j) as d eqn:Hd. revert count j Hd.
  induction d as [d IH] using lt_wf_ind. intros count j Hd Hmax. cbv zeta.
  destruct (decide (j < length x ∧ count < MAX_RLE_RUN)) as [[Hlt Hc]|Hexit].
  - rewrite count_run_step by done. case_decide as Hsame.
    + apply (IH (length x - (j + 4))); lia.
    + right. right. done.
  - rewrite count_run_exit by done. cbn [fst snd]. lia.
Qed.

Lemma take4_drop_lookup x i (h s b a : byte) :
  take 4 (drop i x) = [h; s; b; a] ↔
  x !! i = Some h ∧ x !! (i + 1) = Some s ∧ x !! (i + 2) = Some b ∧ x !! (i + 3) = Some a.
Proof.
  split.
  - intros H.
    assert (Hl : ∀ t, t < 4 → x !! (i + t) = [h; s; b; a] !! t).
    { intros t Ht. by rewrite <- H, lookup_take_lt, lookup_drop by done. }
    pose proof (Hl 0 ltac:(lia)) as H0. rewrite Nat.add_0_r in H0.
    by rewrite H0, (Hl 1), (Hl 2), (Hl 3) by lia.
  - intros (H0 & H1 & H2 & H3).
    rewrite (drop_S _ _ _ H0).
    replace (S i) with (i + 1) by lia. rewrite (drop_S _ _ _ H1).
    replace (S (i + 1)) with (i + 2) by lia. rewrite (drop_S _ _ _ H2).
    replace (S (i + 2)) with (i + 3) by lia. rewrite (drop_S _ _ _ H3).
    done.
Qed.

Lemma compress_loop_greedy x compressed i :
  length x mod 4 = 0 → i mod 4 = 0 → i ≤ length x →
  ∃ added,
    compress_loop x compressed i = compressed ++ added
    ∧ length added mod 5 = 0
    ∧ 4 * (length added / 5) ≤ length x - i
    ∧ (added ≠ [] → take 4 (drop 1 added) = take 4 (drop i x))
    ∧ ∀ k, 5 * (k + 1) < length added →
        take 4 (drop (5 * k + 1) added) = take 4 (drop (5 * (k + 1) + 1) added) →
        added !! (5 * k) = Some Byte.xff.
Proof.
  intros Hx. remember (length x - i) as d eqn:Hd. revert compressed i Hd.
  induction d as [d IH] using lt_wf_ind. intros compressed i Hd Hi Hle.
  destruct (decide (i < length x)) as [Hlt|Hge].
  - rewrite compress_loop_step by done. cbv zeta.
    destruct (lookup_lt_is_Some_2 x i ltac:(lia)) as [h Hh].
    destruct (lookup_lt_is_Some_2 x (i + 1) ltac:(lia)) as [s Hs].
    destruct (lookup_lt_is_Some_2 x (i + 2) ltac:(lia)) as [b Hb].
    destruct (lookup_lt_is_Some_2 x (i + 3) ltac:(lia)) as [a Ha].
    pose proof (count_run_stop x h s b a 1 (i + 4) ltac:(unfold MAX_RLE_RUN; lia))
      as Hstop. cbv zeta in Hstop.
    rewrite Hh, Hs, Hb, Ha.
    destruct (count_run_spec x h s b a 1 (i + 4) ltac:(lia))
      as (m & Hrun & Hcount & Hend & _).
    rewrite Hrun in Hstop |- *. cbn [fst snd store_u8 default from_option id] in *.
    unfold MAX_RLE_RUN in Hcount, Hstop.
    set (j := i + 4 + 4 * m) in *.
    set (run5 := [ToUint8 (Z.of_nat (1 + m)); h; s; b; a]).
    destruct (IH (length x - j) ltac:(lia) (compressed ++ run5) j
                eq_refl ltac:(lia) ltac:(lia))
      as (added & Heq & Hmod & Hlo & Hfirst & Hadj).
    exists (run5 ++ added). rewrite Heq, <- app_assoc.
    rewrite length_app. cbn [run5 length].
    split_and!; [done|lia|lia| |].
    + intros _. cbn [run5 app drop take]. symmetry.
      by apply take4_drop_lookup.
    + intros [|k] Hk Hsame.
      * cbn [run5 app drop take Nat.mul Nat.add] in Hsame.
        assert (Hne : added ≠ []) by (intros ->; simpl in Hk; lia).
        rewrite (Hfirst Hne) in Hsame. symmetry in Hsame.
        apply take4_drop_lookup in Hsame.
        assert (Hfull : 1 + m = 255).
        { destruct Hstop as [?|[Hout|Hdiff]]; [done| |done].
          destruct Hsame as [Hj _]. apply lookup_lt_Some in Hj. lia. }
        cbn [run5 app lookup list_lookup Nat.mul]. by rewrite Hfull.
      * assert (Hrun5 : length run5 = 5) by done.
        replace (5 * S k) with (length run5 + 5 * k) by lia.
        replace (5 * (S k + 1) + 1) with (length run5 + (5 * (k + 1) + 1))
          in Hsame by lia.
        replace (5 * S k + 1) with (length run5 + (5 * k + 1)) in Hsame by lia.
        rewrite !drop_app_add in Hsame.
        rewrite lookup_app_r, Nat.add_comm, Nat.add_sub by lia.
        apply Hadj; [lia|done].
  - rewrite compress_loop_exit by done.
    exists []. rewrite app_nil_r. split_and!; [done|done|simpl; lia|done|].
    intros k Hk. simpl in Hk. lia.
Qed.
End rle_greedy.

(** X4. [compressRLE] takes every run as long as it can: in what it
    returns, two runs that follow each other carry the same voxel only
    when the first of them is full (count 255). *)
Theorem compressRLE_runs_maximal (x c : list byte) (k : nat) :
  compressRLE x = Return c →
  5 * (k + 1) < length c →
  take 4 (drop (5 * k + 1) c) = take 4 (drop (5 * (k + 1) + 1) c) →
  c !! (5 * k) = Some Byte.xff.
Proof.
  intros Hc Hk Hsame.
  pose proof (compressRLE_Return x c Hc) as [Hx _].
  unfold compressRLE in Hc. case_decide as Hempty.
  { injection Hc as <-. simpl in Hk. lia. }
  case_decide; [done|]. injection Hc as <-.
  destruct (compress_loop_greedy x [] 0 Hx eq_refl ltac:(lia))
    as (added & Heq & _ & _ & _ & Hadj).
  rewrite Heq in Hk, Hsame |- *. cbn [app] in *. by apply Hadj.
Qed.

Lemma compressRLE_runs_maximal_witness :
  let x := concat (replicate 300 [Byte.x2a; Byte.x80; Byte.xff; Byte.xff]) in
  let c := [Byte.xff; Byte.x2a; Byte.x80; Byte.xff; Byte.xff;
            Byte.x2d; Byte.x2a; Byte.x80; Byte.xff; Byte.xff] in
  (compressRLE x = Return c
   ∧ 5 * (0 + 1) < length c
   ∧ take 4 (drop (5 * 0 + 1) c) = take 4 (drop (5 * (0 + 1) + 1) c))
  ∧ c !! (5 * 0) = Some Byte.xff.
Proof.
  intros x c. assert (H1 : compressRLE x = Return c) by (by vm_compute).
  assert (H2 : 5 * (0 + 1) < length c) by (simpl; lia).
  assert (H3 : take 4 (drop (5 * 0 + 1) c) = take 4 (drop (5 * (0 + 1) + 1) c))
    by reflexivity.
  split; [exact (conj H1 (conj H2 H3))|].
  exact (compressRLE_runs_maximal x c 0 H1 H2 H3).
Defined.

(** ** Header: what the parser reads *)

Section header_more.
Implicit Types (header : Header.t).

Lemma get_u8_range (u8 : list byte) i : (0 ≤ get_u8 u8 i < 256)%Z.
Proof. apply byte_to_Z_range. Qed.

Lemma getUint32_le_range (u8 : list byte) i : (0 ≤ getUint32_le u8 i < 2 ^ 32)%Z.
Proof.
  unfold getUint32_le.
  pose proof (get_u8_range u8 i). pose proof (get_u8_range u8 (i + 1)).
  pose proof (get_u8_range u8 (i + 2)). pose proof (get_u8_range u8 (i + 3)).
  lia.
Qed.

(** The record a successful parse builds, field by field. *)
Lemma parse_Return (u8 : list byte) header :
  parseHologlyphHeader u8 = Return header →
  28 ≤ length u8
  ∧ take 4 u8 = list_byte_of_string HOLOGLYPH_MAGIC
  ∧ header =
      Header.Build HOLOGLYPH_MAGIC (get_u8 u8 4) (get_u8 u8 5)
        (negb (Z.land (get_u8 u8 6) 1 =? 0)%Z) (getUint32_le u8 24)
        (get_u8 u8 7) (get_u8 u8 8) (get_u8 u8 9) (get_u8 u8 10)
        (get_u8 u8 11) (get_u8 u8 23) (getUint32_le u8 12) (getUint32_le u8 16)
        (get_u8 u8 8 * get_u8 u8 9 * get_u8 u8 10 * get_u8 u8 7) 28.
Proof.
  unfold parseHologlyphHeader. case_decide as Hlen; [done|].
  destruct u8 as [|b0 [|b1 [|b2 [|b3 rest]]]]; simpl in Hlen; try lia.
  cbn [lookup list_lookup take].
  case_decide as Hmagic; [done|]. intros [= <-].
  split; [simpl; lia|]. split; [by apply magic_bytes|].
  rewrite Hmagic. f_equal. by case_decide as H0; [rewrite H0|].
Qed.

Lemma parse_cases (u8 : list byte) :
  (∃ e, parseHologlyphHeader u8 = Throw e
        ∧ (length u8 < 28 ∨ take 4 u8 ≠ list_byte_of_string HOLOGLYPH_MAGIC))
  ∨ (∃ header, parseHologlyphHeader u8 = Return header).
Proof.
  destruct (parseHologlyphHeader u8) as [header|e] eqn:Hp; [right; by eexists|].
  left. exists e. split; [done|].
  unfold parseHologlyphHeader in Hp. case_decide as Hlen; [by left|].
  destruct u8 as [|b0 [|b1 [|b2 [|b3 rest]]]]; simpl in Hlen; try lia.
  cbn [lookup list_lookup take] in Hp |- *.
  case_decide as Hmagic; [|done]. right. by rewrite <- magic_bytes.
Qed.

Lemma parse_ext (u8 v8 : list byte) :
  28 ≤ length u8 → 28 ≤ length v8 →
  (∀ i, i < 28 → u8 !! i = v8 !! i) →
  parseHologlyphHeader u8 = parseHologlyphHeader v8.
Proof.
  intros Hu Hv Hext. unfold parseHologlyphHeader, getUint32_le, get_u8.
  rewrite !list_lookup_total_alt.
  destruct (decide (length u8 < 28)) as [|_]; [lia|].
  destruct (decide (length v8 < 28)) as [|_]; [lia|].
  by rewrite !(Hext _) by lia.
Qed.

(** Options rebuilt from a parsed header fit their slots. *)
Lemma wrap_options_of_header (u8 : list byte) header (c : Z) :
  parseHologlyphHeader u8 = Return header → (0 ≤ c < 256)%Z →
  Options.wrap (options_of_header header c) = options_of_header header c.
Proof.
  intros Hp Hc. apply parse_Return in Hp as (_ & _ & ->).
  unfold Options.wrap, options_of_header. simpl.
  pose proof (get_u8_range u8). pose proof (getUint32_le_range u8).
  by rewrite !Z.mod_small by done.
Qed.
End header_more.

(** X5. The parser looks at the first 28 bytes only: two buffers of at
    least 28 bytes that agree on them parse alike, whatever follows. *)
Theorem parse_reads_header_only (u8 v8 : list byte) :
  28 ≤ length u8 → 28 ≤ length v8 → take 28 u8 = take 28 v8 →
  parseHologlyphHeader u8 = parseHologlyphHeader v8.
Proof.
  intros Hu Hv Htake. apply parse_ext; [done..|].
  intros i Hi. by rewrite <- (lookup_take_lt u8 28 i), Htake, lookup_take_lt.
Qed.

Lemma parse_reads_header_only_witness :
  let u8 := createHologlyphHeader Options.defaults ++ [Byte.x01; Byte.x02] in
  let v8 := createHologlyphHeader Options.defaults in
  (28 ≤ length u8 ∧ 28 ≤ length v8 ∧ take 28 u8 = take 28 v8)
  ∧ parseHologlyphHeader u8 = parseHologlyphHeader v8.
Proof.
  intros u8 v8.
  assert (H1 : 28 ≤ length u8) by (vm_compute; lia).
  assert (H2 : 28 ≤ length v8) by (vm_compute; lia).
  assert (H3 : take 28 u8 = take 28 v8) by reflexivity.
  split; [exact (conj H1 (conj H2 H3))|].
  exact (parse_reads_header_only u8 v8 H1 H2 H3).
Defined.

(** X6. Every header the parser accepts has its numbers within the width
    of their slots: one byte for version, header size, bytes per voxel,
    the three dimensions, colour model and compression type, 32 bits for
    frame count, frame duration and loop start. The derived
    [frameSizeBytes] is the product of the dimensions and the bytes per
    voxel, at most 255^4, and [dataOffset] is always 28. *)
Theorem parse_fields_bounded (u8 : list byte) (header : Header.t) :
  parseHologlyphHeader u8 = Return header →
  Header.magic header = HOLOGLYPH_MAGIC
  ∧ Header.dataOffset header = 28%Z
  ∧ (0 ≤ Header.version header < 256 ∧ 0 ≤ Header.headerSize header < 256
     ∧ 0 ≤ Header.bytesPerVoxel header < 256
     ∧ 0 ≤ Header.width header < 256 ∧ 0 ≤ Header.height header < 256
     ∧ 0 ≤ Header.depth header < 256
     ∧ 0 ≤ Header.colorModel header < 256
     ∧ 0 ≤ Header.compressionType header < 256)%Z
  ∧ (0 ≤ Header.frameCount header < 2 ^ 32
     ∧ 0 ≤ Header.frameDurationMs header < 2 ^ 32
     ∧ 0 ≤ Header.loopStartFrame header < 2 ^ 32)%Z
  ∧ (Header.frameSizeBytes header =
       Header.width header * Header.height header * Header.depth header
       * Header.bytesPerVoxel header)%Z
  ∧ (0 ≤ Header.frameSizeBytes header ≤ 255 ^ 4)%Z.
Proof.
  intros Hp. apply parse_Return in Hp as (_ & _ & ->). simpl.
  pose proof (get_u8_range u8) as Hb. pose proof (getUint32_le_range u8) as Hw.
  split_and!; try done; try apply Hb; try apply Hw.
  - pose proof (Hb 7). pose proof (Hb 8). pose proof (Hb 9). pose proof (Hb 10). nia.
  - pose proof (Hb 7). pose proof (Hb 8). pose proof (Hb 9). pose proof (Hb 10).
    assert (get_u8 u8 8 * get_u8 u8 9 ≤ 255 * 255)%Z by nia.
    assert (0 ≤ get_u8 u8 8 * get_u8 u8 9)%Z by nia.
    assert (get_u8 u8 8 * get_u8 u8 9 * get_u8 u8 10 ≤ 255 * 255 * 255)%Z by nia.
    assert (0 ≤ get_u8 u8 8 * get_u8 u8 9 * get_u8 u8 10)%Z by nia.
    nia.
Qed.

Lemma parse_fields_bounded_witness :
  let u8 := createHologlyphHeader Options.defaults in
  let header := Header.of_options Options.defaults in
  parseHologlyphHeader u8 = Return header
  ∧ Header.magic header = HOLOGLYPH_MAGIC
  ∧ Header.dataOffset header = 28%Z
  ∧ (0 ≤ Header.version header < 256 ∧ 0 ≤ Header.headerSize header < 256
     ∧ 0 ≤ Header.bytesPerVoxel header < 256
     ∧ 0 ≤ Header.width header < 256 ∧ 0 ≤ Header.height header < 256
     ∧ 0 ≤ Header.depth header < 256
     ∧ 0 ≤ Header.colorModel header < 256
     ∧ 0 ≤ Header.compressionType header < 256)%Z
  ∧ (0 ≤ Header.frameCount header < 2 ^ 32
     ∧ 0 ≤ Header.frameDurationMs header < 2 ^ 32
     ∧ 0 ≤ Header.loopStartFrame header < 2 ^ 32)%Z
  ∧ (Header.frameSizeBytes header =
       Header.width header * Header.height header * Header.depth header
       * Header.bytesPerVoxel header)%Z
  ∧ (0 ≤ Header.frameSizeBytes header ≤ 255 ^ 4)%Z.
Proof.
  intros u8 header.
  assert (Hp : parseHologlyphHeader u8 = Return header) by reflexivity.
  split; [exact Hp|]. exact (parse_fields_bounded u8 header Hp).
Defined.

(** X7. Whatever numbers it is given, [createHologlyphHeader] builds 28
    bytes that the parser accepts, with any payload after them: version 1,
    header size 28, the loop flag as given, and every number reduced
    modulo the width of its slot (256, or 2^32). *)
Theorem createHologlyphHeader_always_parses (opts : Options.t) (rest : list byte) :
  length (createHologlyphHeader opts) = 28
  ∧ ∃ header,
      parseHologlyphHeader (createHologlyphHeader opts ++ rest) = Return header
      ∧ Header.version header = 1%Z ∧ Header.headerSize header = 28%Z
      ∧ Header.loop header = Options.loop opts
      ∧ (Header.width header = Options.width opts mod 256
         ∧ Header.height header = Options.height opts mod 256
         ∧ Header.depth header = Options.depth opts mod 256
         ∧ Header.bytesPerVoxel header = Options.bytesPerVoxel opts mod 256
         ∧ Header.colorModel header = Options.colorModel opts mod 256
         ∧ Header.compressionType header = Options.compressionType opts mod 256
         ∧ Header.frameCount header = Options.frameCount opts mod 2 ^ 32
         ∧ Header.frameDurationMs header = Options.frameDurationMs opts mod 2 ^ 32
         ∧ Header.loopStartFrame header = Options.loopStartFrame opts mod 2 ^ 32)%Z.
Proof.
  split; [apply length_createHologlyphHeader|].
  exists (Header.of_options (Options.wrap opts)).
  split; [apply parse_create|]. by repeat split.
Qed.

(** ** Whole files: outcomes of the two file functions *)

Section glyf_more.
Implicit Types (header : Header.t) (rest : list byte).

Lemma compressionType_parse (u8 : list byte) header :
  parseHologlyphHeader u8 = Return header →
  Header.compressionType header = get_u8 u8 23.
Proof. intros Hp. by apply parse_Return in Hp as (_ & _ & ->). Qed.


(** A header rebuilt from a parsed one parses to the version-1 record of
    the same fields. *)
Lemma parse_rebuilt (u8 : list byte) header (c : Z) rest :
  parseHologlyphHeader u8 = Return header → (0 ≤ c < 256)%Z →
  parseHologlyphHeader (createHologlyphHeader (options_of_header header c) ++ rest)
    = Return (Header.of_options (options_of_header header c)).
Proof.
  intros Hp Hc. rewrite parse_create.
  by rewrite (wrap_options_of_header u8 header c Hp Hc).
Qed.

Lemma compressRLE_Throw_iff (x : list byte) :
  (∃ e, compressRLE x = Throw e) ↔ length x mod 4 ≠ 0.
Proof.
  unfold compressRLE. split.
  - intros [e He]. repeat case_decide; try done.
  - intros Hx. repeat case_decide; try lia; by eexists.
Qed.

(** The three ways out of [decompressGlyfFile] for a buffer that parses. *)
Lemma decompressGlyfFile_NONE (limit : nat) (u8 : list byte) header :
  parseHologlyphHeader u8 = Return header →
  Header.compressionType header = COMPRESSION_TYPE.NONE →
  decompressGlyfFile limit u8 = Logged [] (Return u8).
Proof. intros Hp Hnone. unfold decompressGlyfFile. rewrite Hp. by case_decide. Qed.

Lemma decompressGlyfFile_RLE (limit : nat) (u8 : list byte) header :
  parseHologlyphHeader u8 = Return header →
  Header.compressionType header = COMPRESSION_TYPE.RLE →
  let n := Z.to_nat (Header.frameSizeBytes header * Header.frameCount header) in
  decompressGlyfFile limit u8 =
    if decide (n ≤ limit)
    then Logged (if decide (final_writePos (drop 28 u8) n ≠ n)
                 then [WarnRLEMismatch n (final_writePos (drop 28 u8) n)] else [])
           (Return (createHologlyphHeader (options_of_header header COMPRESSION_TYPE.NONE)
                    ++ resize n Byte.x00 (take (4 * (n / 4)) (expand_runs (drop 28 u8)))))
    else Logged [] (Throw ("Invalid typed array length: " +:+ pretty n)).
Proof.
  intros Hp Hrle n. unfold decompressGlyfFile. rewrite Hp, Hrle.
  destruct (decide (COMPRESSION_TYPE.RLE = COMPRESSION_TYPE.NONE)) as [|_]; [done|].
  destruct (decide (COMPRESSION_TYPE.RLE = COMPRESSION_TYPE.RLE)) as [_|]; [|done].
  cbv zeta. fold n. destruct (decide (n ≤ limit)) as [Hfit|Hover].
  - by rewrite decompressRLE_fits.
  - by rewrite decompressRLE_oversized by lia.
Qed.
End glyf_more.

(** X8. [compressGlyfFile] throws in exactly three cases: the buffer is
    shorter than 28 bytes, it does not start with the magic bytes, or it
    is flagged uncompressed (byte 23 is 0) and what follows the header is
    not a whole number of 4-byte voxels. A buffer with any other value in
    byte 23, known compression type or not, is never a reason to throw. *)
Theorem compressGlyfFile_throws_iff (u8 : list byte) :
  (∃ e, value (compressGlyfFile u8) = Throw e) ↔
  length u8 < 28
  ∨ take 4 u8 ≠ list_byte_of_string HOLOGLYPH_MAGIC
  ∨ (get_u8 u8 23 = 0%Z ∧ (length u8 - 28) mod 4 ≠ 0).
Proof.
  unfold compressGlyfFile.
  destruct (parse_cases u8) as [(e & Hp & Hbad)|[header Hp]]; rewrite Hp.
  - split; [intros _|intros _; by exists e].
    destruct Hbad; [by left|by right; left].
  - pose proof (compressionType_parse u8 header Hp) as Hct.
    apply parse_Return in Hp as (Hlen & Hmagic & _).
    case_decide as Hnone; cbn [value].
    + split; [by intros [e He]|].
      intros [?|[?|[H0 _]]]; [lia|done|]. by rewrite Hct in Hnone.
    + assert (Hct0 : get_u8 u8 23 = 0%Z).
      { rewrite <- Hct. by destruct (decide (Header.compressionType header = 0%Z)). }
      pose proof (compressRLE_Throw_iff (drop 28 u8)) as Hthrow.
      rewrite length_drop in Hthrow.
      destruct (compressRLE (drop 28 u8)) as [c|e] eqn:Hc; cbn [value].
      * split; [by intros [e He]|].
        intros [?|[?|[_ Hmod]]]; [lia|done|].
        apply Hthrow in Hmod as [e He]. done.
      * split; [intros _|intros _; by exists e].
        right; right. split; [done|]. apply Hthrow. by exists e.
Qed.

(** X9. Compressing is idempotent: whatever [compressGlyfFile] returns,
    handing it to [compressGlyfFile] again gives back that very buffer,
    with the warning that the file is already compressed. *)
Theorem compressGlyfFile_idempotent (u8 y : list byte) :
  value (compressGlyfFile u8) = Return y →
  compressGlyfFile y = Logged [WarnAlreadyCompressed] (Return y).
Proof.
  unfold compressGlyfFile at 1.
  destruct (parseHologlyphHeader u8) as [header|e] eqn:Hp; [|done].
  case_decide as Hnone; cbn [value].
  - intros <-%Return_inj. unfold compressGlyfFile. rewrite Hp.
    by destruct (decide (Header.compressionType header ≠ COMPRESSION_TYPE.NONE)).
  - destruct (compressRLE (drop 28 u8)) as [c|e]; [|done]. cbn [value].
    intros <-%Return_inj. unfold compressGlyfFile.
    rewrite (parse_rebuilt u8 header COMPRESSION_TYPE.RLE c Hp) by done.
    by case_decide.
Qed.

Lemma compressGlyfFile_idempotent_witness :
  let opts := Options.Build 2 1 1 1 100 true 0 4 0 COMPRESSION_TYPE.NONE in
  let u8 := createHologlyphHeader opts
            ++ [Byte.x07; Byte.xff; Byte.xff; Byte.xff; Byte.x07; Byte.xff; Byte.xff; Byte.xff] in
  let y := createHologlyphHeader (Options.with_compressionType COMPRESSION_TYPE.RLE opts)
           ++ [Byte.x02; Byte.x07; Byte.xff; Byte.xff; Byte.xff] in
  value (compressGlyfFile u8) = Return y
  ∧ compressGlyfFile y = Logged [WarnAlreadyCompressed] (Return y).
Proof.
  intros opts u8 y.
  assert (H : value (compressGlyfFile u8) = Return y) by (by vm_compute).
  split; [exact H|]. exact (compressGlyfFile_idempotent u8 y H).
Defined.

(** X10. Decompressing is idempotent: whatever [decompressGlyfFile]
    returns is flagged uncompressed, and handing it to
    [decompressGlyfFile] again gives back that very buffer, with nothing
    logged. *)
Theorem decompressGlyfFile_idempotent (limit : nat) (u8 z : list byte) :
  value (decompressGlyfFile limit u8) = Return z →
  get_u8 z 23 = COMPRESSION_TYPE.NONE
  ∧ decompressGlyfFile limit z = Logged [] (Return z).
Proof.
  intros Hz.
  destruct (parseHologlyphHeader u8) as [header|e] eqn:Hp;
    [|by unfold decompressGlyfFile in Hz; rewrite Hp in Hz].
  destruct (decide (Header.compressionType header = COMPRESSION_TYPE.NONE)) as [Hnone|Hnone].
  - rewrite (decompressGlyfFile_NONE limit u8 header Hp Hnone) in Hz.
    apply Return_inj in Hz as <-. split.
    + by rewrite <- (compressionType_parse u8 header Hp).
    + by apply (decompressGlyfFile_NONE limit u8 header).
  - destruct (decide (Header.compressionType header = COMPRESSION_TYPE.RLE)) as [Hrle|Hrle].
    + rewrite (decompressGlyfFile_RLE limit u8 header Hp Hrle) in Hz.
      destruct (decide (_ ≤ limit)); [|done]. cbn [value] in Hz.
      apply Return_inj in Hz as <-.
      match goal with |- context [_ ++ ?rest] =>
        pose proof (parse_rebuilt u8 header COMPRESSION_TYPE.NONE rest Hp ltac:(done)) as Hz
      end.
      split.
      * by rewrite <- (compressionType_parse _ _ Hz).
      * by apply (decompressGlyfFile_NONE limit _ _ Hz).
    + unfold decompressGlyfFile in Hz. rewrite Hp in Hz.
      by do 2 (destruct (decide _); [done|]).
Qed.

Lemma decompressGlyfFile_idempotent_witness :
  let opts := Options.Build 2 1 1 1 100 true 0 4 0 COMPRESSION_TYPE.NONE in
  let z := createHologlyphHeader opts
            ++ [Byte.x07; Byte.xff; Byte.xff; Byte.xff; Byte.x07; Byte.xff; Byte.xff; Byte.xff] in
  let u8 := createHologlyphHeader (Options.with_compressionType COMPRESSION_TYPE.RLE opts)
           ++ [Byte.x02; Byte.x07; Byte.xff; Byte.xff; Byte.xff] in
  value (decompressGlyfFile 1024 u8) = Return z
  ∧ get_u8 z 23 = COMPRESSION_TYPE.NONE
  ∧ decompressGlyfFile 1024 z = Logged [] (Return z).
Proof.
  intros opts z u8.
  assert (H : value (decompressGlyfFile 1024 u8) = Return z) by (by vm_compute).
  split; [exact H|]. exact (decompressGlyfFile_idempotent 1024 u8 z H).
Defined.

(** X11. What [decompressGlyfFile] makes of a file flagged RLE has the
    size its header declares, whatever the stream holds: 28 bytes of
    header and [frameSizeBytes * frameCount] bytes of voxels. Its header
    parses to the same fields as the input's, except that the compression
    type is NONE and that version and header size are those the library
    writes (1 and 28). *)
Theorem decompressGlyfFile_rle_size (limit : nat) (u8 z : list byte) (header : Header.t) :
  parseHologlyphHeader u8 = Return header →
  Header.compressionType header = COMPRESSION_TYPE.RLE →
  value (decompressGlyfFile limit u8) = Return z →
  length z = 28 + Z.to_nat (Header.frameSizeBytes header * Header.frameCount header)
  ∧ parseHologlyphHeader z =
      Return (Header.of_options (options_of_header header COMPRESSION_TYPE.NONE)).
Proof.
  intros Hp Hrle. rewrite (decompressGlyfFile_RLE limit u8 header Hp Hrle).
  destruct (decide (_ ≤ limit)); [|done]. cbn [value]. intros <-%Return_inj. split.
  - by rewrite length_app, length_createHologlyphHeader, length_resize.
  - by apply (parse_rebuilt u8).
Qed.

Lemma decompressGlyfFile_rle_size_witness :
  let opts := Options.Build 2 1 1 1 100 true 0 4 0 COMPRESSION_TYPE.RLE in
  let u8 := createHologlyphHeader opts ++ [Byte.x01; Byte.x07; Byte.xff] in
  let header := Header.of_options opts in
  let z := createHologlyphHeader (Options.with_compressionType COMPRESSION_TYPE.NONE opts)
           ++ [Byte.x07; Byte.xff; Byte.x00; Byte.x00; Byte.x00; Byte.x00; Byte.x00; Byte.x00] in
  (parseHologlyphHeader u8 = Return header
   ∧ Header.compressionType header = COMPRESSION_TYPE.RLE
   ∧ value (decompressGlyfFile 1024 u8) = Return z)
  ∧ length z = 28 + Z.to_nat (Header.frameSizeBytes header * Header.frameCount header)
  ∧ parseHologlyphHeader z =
      Return (Header.of_options (options_of_header header COMPRESSION_TYPE.NONE)).
Proof.
  intros opts u8 header z.
  assert (H1 : parseHologlyphHeader u8 = Return header) by reflexivity.
  assert (H2 : Header.compressionType header = COMPRESSION_TYPE.RLE) by reflexivity.
  assert (H3 : value (decompressGlyfFile 1024 u8) = Return z) by (by vm_compute).
  split; [exact (conj H1 (conj H2 H3))|].
  exact (decompressGlyfFile_rle_size 1024 u8 z header H1 H2 H3).
Defined.



(** ** Pixel codec: all bytes and all whole numbers *)

Section pixel_more.

Lemma clamp_spec (v lo hi : Q) :
  (lo <= hi)%Q →
  ((v <= lo)%Q ∧ clamp v lo hi == lo)
  ∨ ((lo <= v)%Q ∧ (v <= hi)%Q ∧ clamp v lo hi == v)
  ∨ ((hi <= v)%Q ∧ clamp v lo hi == hi).
Proof.
  intros Hlohi. unfold clamp.
  destruct (Q.max_spec v lo) as [[H1 E1]|[H1 E1]],
           (Q.min_spec (Qmax v lo) hi) as [[H2 E2]|[H2 E2]].
  - left. split; [lra|]. by rewrite E2, E1.
  - left. split; [lra|]. rewrite E2. lra.
  - right. left. split; [lra|]. split; [lra|]. by rewrite E2, E1.
  - right. right. split; [lra|]. by rewrite E2.
Qed.

Lemma clamp_mono (v w lo hi : Q) :
  (lo <= hi)%Q → (v <= w)%Q → (clamp v lo hi <= clamp w lo hi)%Q.
Proof.
  intros Hlohi Hvw.
  destruct (clamp_spec v lo hi Hlohi) as [[? Ev]|[(? & ? & Ev)|[? Ev]]],
           (clamp_spec w lo hi Hlohi) as [[? Ew]|[(? & ? & Ew)|[? Ew]]];
    rewrite Ev, Ew; lra.
Qed.

Lemma Math_round_mono (x y : Q) : (x <= y)%Q → (Math_round x ≤ Math_round y)%Z.
Proof. intros Hxy. unfold Math_round. apply Qfloor_resp_le. lra. Qed.

(** Re-encoding what a byte (or a missing byte) decodes to: the byte moves
    by at most 1, and decodes to the same percentage. *)
Lemma reencode_byte (v : option byte) :
  let p := inject_Z (byteToPercent (number_or_0 v)) in
  (Z.abs (byte_to_Z (ToUint8 (percentToByte p)) - byte_to_Z (store_u8 v)) ≤ 1)%Z
  ∧ byteToPercent (number_or_0 (Some (ToUint8 (percentToByte p))))
    = byteToPercent (number_or_0 v).
Proof. destruct v as [b|]; [destruct b|]; by vm_compute. Qed.

Lemma reencode_hue (v : option byte) :
  ToUint8 (Qfloor (clamp (inject_Z (Math_round (clamp (number_or_0 v) 0 255))) 0 255))
  = store_u8 v.
Proof. destruct v as [b|]; [destruct b|]; by vm_compute. Qed.
End pixel_more.

(** X13. Decoding a four-byte pixel and encoding the result again keeps
    the hue byte and moves each of the other three bytes by at most 1
    (256 byte values are mapped onto 101 percentages and back). *)
Theorem encode_decode_bytes_within_1 (hb sb bb ab : byte) :
  ∃ sb' bb' ab' : byte,
    HSBAUtil.encodePixel (HSBAUtil.decodePixel [hb; sb; bb; ab]) = [hb; sb'; bb'; ab']
    ∧ (Z.abs (byte_to_Z sb' - byte_to_Z sb) ≤ 1)%Z
    ∧ (Z.abs (byte_to_Z bb' - byte_to_Z bb) ≤ 1)%Z
    ∧ (Z.abs (byte_to_Z ab' - byte_to_Z ab) ≤ 1)%Z.
Proof.
  unfold HSBAUtil.encodePixel, HSBAUtil.decodePixel.
  cbn [HSBAUtil.h HSBAUtil.s HSBAUtil.b HSBAUtil.a lookup list_lookup].
  do 3 eexists. split; [|split_and!].
  - f_equal. exact (reencode_hue (Some hb)).
  - exact (proj1 (reencode_byte (Some sb))).
  - exact (proj1 (reencode_byte (Some bb))).
  - exact (proj1 (reencode_byte (Some ab))).
Qed.

(** X14. One decoding fixes the colour: for any byte array, also one
    shorter than four bytes, decoding, encoding and decoding again gives
    the colour of the first decoding. *)
Theorem decode_encode_decode (bytes : list byte) :
  HSBAUtil.decodePixel (HSBAUtil.encodePixel (HSBAUtil.decodePixel bytes))
  = HSBAUtil.decodePixel bytes.
Proof.
  unfold HSBAUtil.encodePixel, HSBAUtil.decodePixel.
  cbn [HSBAUtil.h HSBAUtil.s HSBAUtil.b HSBAUtil.a lookup list_lookup].
  rewrite (proj2 (reencode_byte (bytes !! 1))), (proj2 (reencode_byte (bytes !! 2))),
          (proj2 (reencode_byte (bytes !! 3))), reencode_hue.
  done.
Qed.

(* Linear arithmetic over [v / 100 * 255]: the division is by a constant. *)
Ltac scale_lra :=
  unfold Qdiv; change (/ 100)%Q with (1 # 100)%Q; lra.

Section pixel_saturation.

(** Monotonicity and saturation in the exact arithmetic of the model. *)
Lemma percentToByte_exact (p q : Q) :
  (p <= q)%Q →
  (percentToByte p ≤ percentToByte q)%Z
  ∧ (0 ≤ percentToByte p ≤ 255)%Z
  ∧ ((p <= 0)%Q → percentToByte p = 0%Z)
  ∧ ((100 <= p)%Q → percentToByte p = 255%Z).
Proof.
  intros Hpq. unfold percentToByte. cbv zeta.
  assert (H0100 : (0 <= 100)%Q) by done.
  pose proof (clamp_mono p q 0 100 H0100 Hpq) as Hmono.
  assert (Hrange : (0 <= clamp p 0 100)%Q ∧ (clamp p 0 100 <= 100)%Q).
  { destruct (clamp_spec p 0 100 H0100) as [[? E]|[(? & ? & E)|[? E]]];
      rewrite E; split; scale_lra. }
  destruct Hrange as [Hlo Hhi].
  split_and!.
  - apply Math_round_mono. scale_lra.
  - apply (Math_round_mono 0 (clamp p 0 100 / 100 * 255)). scale_lra.
  - apply (Math_round_mono (clamp p 0 100 / 100 * 255) 255). scale_lra.
  - intros Hp.
    assert (E : clamp p 0 100 == 0).
    { destruct (clamp_spec p 0 100 H0100) as [[? E]|[(? & ? & E)|[? E]]]; lra. }
    transitivity (Math_round 0); [|done].
    unfold Math_round. apply Qfloor_comp. by rewrite E.
  - intros Hp.
    assert (E : clamp p 0 100 == 100).
    { destruct (clamp_spec p 0 100 H0100) as [[? E]|[(? & ? & E)|[? E]]]; lra. }
    transitivity (Math_round 255); [|done].
    unfold Math_round. apply Qfloor_comp. by rewrite E.
Qed.
End pixel_saturation.

(** X15. On all whole numbers, not only those from 0 to 100,
    [percentToByte] is monotonic, stays within 0-255 and saturates:
    anything up to 0 gives 0, anything from 100 up gives 255. (On whole
    numbers the double-precision computation of the source is the exact
    one: the clamp is exact, and on 0-100 the two agree value by
    value.) *)
Theorem percentToByte_monotone_saturating (p q : Z) :
  (p ≤ q)%Z →
  (percentToByte (inject_Z p) ≤ percentToByte (inject_Z q))%Z
  ∧ (0 ≤ percentToByte (inject_Z p) ≤ 255)%Z
  ∧ ((p ≤ 0)%Z → percentToByte (inject_Z p) = 0%Z)
  ∧ ((100 ≤ p)%Z → percentToByte (inject_Z p) = 255%Z).
Proof.
  intros Hpq.
  destruct (percentToByte_exact (inject_Z p) (inject_Z q)) as (Hmono & Hrange & Hlo & Hhi).
  { by rewrite <- Zle_Qle. }
  split_and!; [done|apply Hrange|apply Hrange| |].
  - intros Hp. apply Hlo. change 0%Q with (inject_Z 0). by rewrite <- Zle_Qle.
  - intros Hp. apply Hhi. change 100%Q with (inject_Z 100). by rewrite <- Zle_Qle.
Qed.

Lemma percentToByte_monotone_saturating_witness :
  (-7 ≤ 250)%Z
  ∧ (percentToByte (inject_Z (-7)) ≤ percentToByte (inject_Z 250))%Z
  ∧ (0 ≤ percentToByte (inject_Z (-7)) ≤ 255)%Z
  ∧ ((-7 ≤ 0)%Z → percentToByte (inject_Z (-7)) = 0%Z)
  ∧ ((100 ≤ -7)%Z → percentToByte (inject_Z (-7)) = 255%Z).
Proof.
  assert (H : (-7 ≤ 250)%Z) by lia.
  split; [exact H|]. exact (percentToByte_monotone_saturating (-7) 250 H).
Defined.

(** ** Frame clock: any file, any timestamps *)

Section clock_more.
Import Player.
Implicit Types (p q : Player.t) (fuel n k : nat).

Lemma set_accum_advanceFrame (a : Q) p :
  _advanceFrame (set_accum a p) = set_accum a (_advanceFrame p).
Proof.
  unfold _advanceFrame. cbn [set_accum currentFrame frameCount loop loopStartFrame].
  by repeat case_match.
Qed.

Lemma set_lastTs_advanceFrame (ts : Q) p :
  _advanceFrame (set_lastTs ts p) = set_lastTs ts (_advanceFrame p).
Proof.
  unfold _advanceFrame. cbn [set_lastTs currentFrame frameCount loop loopStartFrame].
  by repeat case_match.
Qed.

Lemma iter_advanceFrame_set_accum (a : Q) n p :
  Nat.iter n _advanceFrame (set_accum a p) = set_accum a (Nat.iter n _advanceFrame p).
Proof.
  induction n as [|n IH]; [done|].
  cbn [Nat.iter nat_rect]. change (nat_rect _ ?x _ n) with (Nat.iter n _advanceFrame x).
  by rewrite IH, set_accum_advanceFrame.
Qed.

Lemma iter_advanceFrame_set_lastTs (ts : Q) n p :
  Nat.iter n _advanceFrame (set_lastTs ts p) = set_lastTs ts (Nat.iter n _advanceFrame p).
Proof.
  induction n as [|n IH]; [done|].
  cbn [Nat.iter nat_rect]. change (nat_rect _ ?x _ n) with (Nat.iter n _advanceFrame x).
  by rewrite IH, set_lastTs_advanceFrame.
Qed.

Lemma set_accum_accum p : set_accum (_accum p) p = p.
Proof. by destruct p. Qed.

Lemma set_accum_set_accum (a a' : Q) p : set_accum a' (set_accum a p) = set_accum a' p.
Proof. done. Qed.

Lemma Qle_bool_false (x y : Q) : Qle_bool x y = false ↔ (y < x)%Q.
Proof.
  rewrite <- not_true_iff_false, Qle_bool_iff. split; [apply Qnot_le_lt|apply Qlt_not_le].
Qed.

(** The [while] of [_loop] with a positive duration: it exits after [k]
    advances, [k] durations taken off [_accum]. *)
Lemma advance_due_count n p :
  (0 < frameDurationMs p)%Z →
  (_accum p < inject_Z (Z.of_nat n) * inject_Z (frameDurationMs p))%Q →
  ∃ k (a' : Q),
    (∀ fuel, k < fuel →
       advance_due fuel p = Some (set_accum a' (Nat.iter k _advanceFrame p)))
    ∧ a' == _accum p - inject_Z (Z.of_nat k) * inject_Z (frameDurationMs p)
    ∧ (a' < inject_Z (frameDurationMs p))%Q
    ∧ ((_accum p < inject_Z (frameDurationMs p))%Q → k = 0)
    ∧ ((inject_Z (frameDurationMs p) <= _accum p)%Q → (0 <= a')%Q).
Proof.
  intros Hd. assert (Hdq : (0 < inject_Z (frameDurationMs p))%Q).
  { change 0%Q with (inject_Z 0). by rewrite <- Zlt_Qlt. }
  revert p Hd Hdq. induction n as [|n IH]; intros p Hd Hdq Hn.
  - change (inject_Z (Z.of_nat 0)) with 0%Q in Hn.
    exists 0, (_accum p). change (inject_Z (Z.of_nat 0)) with 0%Q.
    split_and!; [|lra|lra|done|lra].
    intros [|fuel] Hfuel; [lia|]. cbn [advance_due Nat.iter nat_rect].
    rewrite set_accum_accum.
    by rewrite (proj2 (Qle_bool_false _ _)) by lra.
  - destruct (Qle_bool (inject_Z (frameDurationMs p)) (_accum p)) eqn:Hle.
    + apply Qle_bool_iff in Hle.
      set (p1 := _advanceFrame (set_accum (_accum p - inject_Z (frameDurationMs p)) p)).
      assert (Hd1 : frameDurationMs p1 = frameDurationMs p)
        by (unfold p1; by rewrite frameDurationMs_advanceFrame).
      assert (Ha1 : _accum p1 = (_accum p - inject_Z (frameDurationMs p))%Q)
        by (unfold p1; by rewrite accum_advanceFrame).
      rewrite Nat2Z.inj_succ, <- Z.add_1_r, inject_Z_plus in Hn.
      change (inject_Z 1) with 1%Q in Hn.
      destruct (IH p1) as (k & a' & Hrun & Ha' & Hlt & Hk0 & Hpos);
        rewrite ?Hd1, ?Ha1; try done; [lra|].
      rewrite Hd1, Ha1 in *.
      exists (S k), a'. split_and!.
      * intros [|fuel] Hfuel; [lia|]. cbn [advance_due]. rewrite (proj2 (Qle_bool_iff _ _) Hle).
        fold p1. rewrite Hrun by lia. f_equal.
        unfold p1. rewrite set_accum_advanceFrame, iter_advanceFrame_set_accum.
        rewrite set_accum_set_accum. by rewrite <- Nat.iter_succ_r.
      * rewrite Nat2Z.inj_succ, <- Z.add_1_r, inject_Z_plus.
        change (inject_Z 1) with 1%Q. lra.
      * done.
      * lra.
      * intros _.
        destruct (Qlt_le_dec (_accum p - inject_Z (frameDurationMs p))
                    (inject_Z (frameDurationMs p))) as [Hsmall|Hbig].
        -- rewrite (Hk0 Hsmall) in Ha'. change (inject_Z (Z.of_nat 0)) with 0%Q in Ha'. lra.
        -- by apply Hpos.
    + apply Qle_bool_false in Hle.
      exists 0, (_accum p). change (inject_Z (Z.of_nat 0)) with 0%Q.
      split_and!; [|lra|lra|done|lra].
      intros [|fuel] Hfuel; [lia|]. cbn [advance_due Nat.iter nat_rect].
      rewrite set_accum_accum.
      by rewrite (proj2 (Qle_bool_false _ _)) by lra.
Qed.

(** Any amount of time is less than some number of whole durations. *)
Lemma accum_bound (a : Q) (d : Z) :
  (0 < d)%Z → ∃ n, (a < inject_Z (Z.of_nat n) * inject_Z d)%Q.
Proof.
  intros Hd. exists (Z.to_nat (Qfloor a + 1)).
  pose proof (Qlt_floor a) as Hfl.
  destruct (Z_lt_le_dec (Qfloor a + 1) 0) as [Hneg|Hpos].
  - replace (Z.to_nat (Qfloor a + 1)) with 0 by lia. change (inject_Z (Z.of_nat 0)) with 0%Q.
    assert (inject_Z (Qfloor a + 1) < 0)%Q
      by (change 0%Q with (inject_Z 0); by rewrite <- Zlt_Qlt).
    lra.
  - rewrite Z2Nat.id by done. rewrite <- inject_Z_mult.
    assert (inject_Z (Qfloor a + 1) <= inject_Z ((Qfloor a + 1) * d))%Q
      by (rewrite <- Zle_Qle; nia).
    lra.
Qed.
Lemma static_advanceFrame p :
  frameCount (_advanceFrame p) = frameCount p
  ∧ loop (_advanceFrame p) = loop p
  ∧ loopStartFrame (_advanceFrame p) = loopStartFrame p.
Proof. unfold _advanceFrame. by repeat case_match. Qed.

Lemma static_iter_advanceFrame n p :
  frameCount (Nat.iter n _advanceFrame p) = frameCount p
  ∧ loop (Nat.iter n _advanceFrame p) = loop p
  ∧ loopStartFrame (Nat.iter n _advanceFrame p) = loopStartFrame p.
Proof.
  induction n as [|n (IH1 & IH2 & IH3)]; [done|].
  cbn [Nat.iter nat_rect]. change (nat_rect _ p _ n) with (Nat.iter n _advanceFrame p).
  destruct (static_advanceFrame (Nat.iter n _advanceFrame p)) as (-> & -> & ->). done.
Qed.

(** One tick with a positive duration. *)
Lemma loop_count (p : Player.t) (ts : Q) :
  (0 < Player.frameDurationMs p)%Z → Player._playing p = true →
  let d := inject_Z (Player.frameDurationMs p) in
  let a := (Player._accum p
            + (ts - (if Qeq_bool (Player._lastTs p) 0 then ts else Player._lastTs p)))%Q in
  ∃ (k : nat) (a' : Q),
    (∀ fuel, k < fuel →
       Player._loop fuel ts p =
         Some (Player.set_accum a'
                 (Player.set_lastTs ts (Nat.iter k Player._advanceFrame p))))
    ∧ a' == a - inject_Z (Z.of_nat k) * d
    ∧ (a' < d)%Q
    ∧ ((a < d)%Q → k = 0)
    ∧ ((d <= a)%Q → (0 <= a')%Q).
Proof.
  intros Hd Hplay d a.
  set (p1 := Player.set_accum a (Player.set_lastTs ts p)).
  destruct (accum_bound a (Player.frameDurationMs p) Hd) as [n Hn].
  destruct (advance_due_count n p1 Hd Hn) as (k & a' & Hrun & Ha' & Hlt & Hk0 & Hpos).
  exists k, a'. split_and!; try done.
  intros fuel Hfuel. unfold Player._loop. rewrite Hplay. cbn [negb]. cbv zeta.
  fold a. change (Player._accum (Player.set_lastTs ts p)) with (Player._accum p).
  fold a. fold p1. rewrite (Hrun fuel Hfuel). f_equal.
  unfold p1. rewrite iter_advanceFrame_set_accum, iter_advanceFrame_set_lastTs.
  done.
Qed.

Lemma playing_iter_advanceFrame n p :
  loop p = true → _playing (Nat.iter n _advanceFrame p) = _playing p.
Proof.
  intros Hloop. induction n as [|n IH]; [done|].
  cbn [Nat.iter nat_rect]. change (nat_rect _ p _ n) with (Nat.iter n _advanceFrame p).
  rewrite <- IH.
  pose proof (proj1 (proj2 (static_iter_advanceFrame n p))) as Hq.
  rewrite Hloop in Hq. set (q := Nat.iter n _advanceFrame p) in *.
  unfold _advanceFrame. case_match; [done|]. by rewrite Hq.
Qed.

Lemma frameDurationMs_iter_advanceFrame n p :
  frameDurationMs (Nat.iter n _advanceFrame p) = frameDurationMs p.
Proof.
  induction n as [|n IH]; [done|].
  cbn [Nat.iter nat_rect]. change (nat_rect _ p _ n) with (Nat.iter n _advanceFrame p).
  by rewrite frameDurationMs_advanceFrame.
Qed.

Lemma set_accum_set_lastTs_id p : set_accum (_accum p) (set_lastTs (_lastTs p) p) = p.
Proof. by destruct p. Qed.

(** A whole amount of time [total], reached as [k] whole durations and a
    remainder below one duration: [k] and the remainder are the quotient
    and the remainder of the division. *)
Lemma whole_division (a' : Q) (total d : Z) k :
  (0 < d)%Z →
  a' + inject_Z (Z.of_nat k) * inject_Z d == inject_Z total →
  (0 <= a')%Q → (a' < inject_Z d)%Q →
  k = Z.to_nat (total / d) ∧ a' == inject_Z (total mod d).
Proof.
  intros Hd Hsum Hlo Hhi.
  set (r := (total - Z.of_nat k * d)%Z).
  assert (Hr : a' == inject_Z r).
  { unfold r, Z.sub. rewrite inject_Z_plus, inject_Z_opp, inject_Z_mult.
    rewrite <- Hsum. ring. }
  rewrite Hr in Hlo, Hhi.
  change 0%Q with (inject_Z 0) in Hlo.
  rewrite <- Zle_Qle in Hlo. rewrite <- Zlt_Qlt in Hhi.
  assert (Hq : (total / d = Z.of_nat k)%Z).
  { symmetry. apply (Z.div_unique total d (Z.of_nat k) r); [lia|unfold r; lia]. }
  assert (Hm : (total mod d = r)%Z).
  { symmetry. apply (Z.mod_unique total d (Z.of_nat k) r); [lia|unfold r; lia]. }
  split; [lia|by rewrite Hm].
Qed.

End clock_more.

(** X16. A tick at whole-millisecond times. For a playing player with a
    positive frame duration [d] whose [_accum] and [_lastTs] are whole
    numbers [a] and [l], a [_loop] call at a whole timestamp [t] not before
    [l] returns, given fuel for its advances. It stores [t], adds the time
    since the last tick (nothing when [_lastTs] is 0, which it reads as no
    tick yet) to [a], advances as many frames as whole durations fit in
    that total and keeps the remainder. All values being whole numbers
    below 2^53, the double-precision arithmetic of the source is exact. *)
Theorem loop_positive_duration (p : Player.t) (a l t : Z) :
  (0 < Player.frameDurationMs p)%Z → Player._playing p = true →
  Player._accum p == inject_Z a → Player._lastTs p == inject_Z l →
  (0 ≤ a)%Z → (0 ≤ l ≤ t)%Z → (a + t < 2 ^ 53)%Z →
  let d := Player.frameDurationMs p in
  let total := (a + (if decide (l = 0%Z) then 0 else t - l))%Z in
  let k := Z.to_nat (total / d) in
  ∃ a' : Q,
    a' == inject_Z (total mod d)
    ∧ ∀ fuel, k < fuel →
        Player._loop fuel (inject_Z t) p =
          Some (Player.set_accum a'
                  (Player.set_lastTs (inject_Z t) (Nat.iter k Player._advanceFrame p))).
Proof.
  intros Hd Hplay Ha Hl Ha0 Hlt _ d total k.
  destruct (loop_count p (inject_Z t) Hd Hplay) as (k' & a' & Hrun & Ha' & Hlt' & Hk0 & Hpos).
  fold d in Ha', Hlt', Hk0, Hpos.
  assert (Htotal : Player._accum p
                   + (inject_Z t - (if Qeq_bool (Player._lastTs p) 0
                                    then inject_Z t else Player._lastTs p))
                   == inject_Z total).
  { unfold total. destruct (decide (l = 0%Z)) as [->|Hne].
    - change (inject_Z 0) with 0%Q in Hl.
      rewrite (proj2 (Qeq_bool_iff _ _) Hl), Z.add_0_r, Ha. ring.
    - assert (Hf : Qeq_bool (Player._lastTs p) 0 = false).
      { apply not_true_iff_false. rewrite Qeq_bool_iff, Hl.
        change 0%Q with (inject_Z 0). by rewrite inject_Z_injective. }
      rewrite Hf, Ha, Hl. unfold Z.sub. rewrite !inject_Z_plus, inject_Z_opp. ring. }
  rewrite Htotal in Ha', Hk0, Hpos.
  assert (H0 : (0 <= inject_Z total)%Q).
  { change 0%Q with (inject_Z 0). rewrite <- Zle_Qle. unfold total. case_decide; lia. }
  assert (Hlo' : (0 <= a')%Q).
  { destruct (Qlt_le_dec (inject_Z total) (inject_Z d)) as [Hsmall|Hbig].
    - rewrite (Hk0 Hsmall) in Ha'. change (inject_Z (Z.of_nat 0)) with 0%Q in Ha'. lra.
    - by apply Hpos. }
  destruct (whole_division a' total d k' Hd) as [-> Hmod]; [rewrite Ha'; ring|done|done|].
  exists a'. split; [done|]. exact Hrun.
Qed.

Lemma loop_positive_duration_witness :
  let p := Player.Build false 64 64 [] (Header.of_options Options.defaults)
             1 1 1 5 4 28 100 true 2 4 8 0 true 1000 30 in
  ((0 < Player.frameDurationMs p)%Z ∧ Player._playing p = true
   ∧ Player._accum p == inject_Z 30 ∧ Player._lastTs p == inject_Z 1000
   ∧ (0 ≤ 30)%Z ∧ (0 ≤ 1000 ≤ 1250)%Z ∧ (30 + 1250 < 2 ^ 53)%Z)
  ∧ let d := Player.frameDurationMs p in
    let total := (30 + (if decide (1000 = 0)%Z then 0 else 1250 - 1000))%Z in
    let k := Z.to_nat (total / d) in
    ∃ a' : Q,
      a' == inject_Z (total mod d)
      ∧ ∀ fuel, k < fuel →
          Player._loop fuel (inject_Z 1250) p =
            Some (Player.set_accum a'
                    (Player.set_lastTs (inject_Z 1250)
                       (Nat.iter k Player._advanceFrame p))).
Proof.
  intros p.
  assert (H1 : (0 < Player.frameDurationMs p)%Z) by reflexivity.
  assert (H2 : Player._playing p = true) by reflexivity.
  assert (H3 : Player._accum p == inject_Z 30) by reflexivity.
  assert (H4 : Player._lastTs p == inject_Z 1000) by reflexivity.
  assert (H5 : (0 ≤ 30)%Z) by lia.
  assert (H6 : (0 ≤ 1000 ≤ 1250)%Z) by lia.
  assert (H7 : (30 + 1250 < 2 ^ 53)%Z) by lia.
  split; [exact (conj H1 (conj H2 (conj H3 (conj H4 (conj H5 (conj H6 H7))))))|].
  exact (loop_positive_duration p 30 1000 1250 H1 H2 H3 H4 H5 H6 H7).
Defined.

Section frames.
Import Player.
Implicit Types (p q : Player.t) (fuel n k : nat).

(** One more step around a cycle of [M] positions. *)
Lemma mod_succ (m M : Z) :
  (0 ≤ m)%Z → (1 ≤ M)%Z →
  ((m + 1) mod M = if m mod M + 1 <? M then m mod M + 1 else 0)%Z.
Proof.
  intros Hm HM. pose proof (Z.mod_pos_bound m M ltac:(lia)) as Hr.
  rewrite <- Z.add_mod_idemp_l by lia.
  destruct (Z.ltb_spec (m mod M + 1) M) as [Hlt|Hge].
  - apply Z.mod_small. lia.
  - replace (m mod M + 1)%Z with M by lia. apply Z.mod_same. lia.
Qed.

Lemma frame_in_range_advanceFrame p :
  (0 ≤ loopStartFrame p)%Z → (0 ≤ currentFrame p < frameCount p)%Z →
  (0 ≤ currentFrame (_advanceFrame p) < frameCount p)%Z.
Proof.
  intros HL Hc. unfold _advanceFrame.
  destruct (Z.ltb_spec (currentFrame p + 1) (frameCount p)); [simpl; lia|].
  destruct (loop p); simpl; lia.
Qed.

Lemma frame_in_range_advance_due fuel p p' :
  (0 ≤ loopStartFrame p)%Z → (0 ≤ currentFrame p < frameCount p)%Z →
  advance_due fuel p = Some p' →
  (0 ≤ currentFrame p' < frameCount p')%Z
  ∧ frameCount p' = frameCount p ∧ loopStartFrame p' = loopStartFrame p.
Proof.
  revert p. induction fuel as [|fuel IH]; intros p HL Hc; [done|].
  cbn [advance_due]. case_match; [|by intros [= <-]].
  intros Hrun.
  destruct (static_advanceFrame
              (set_accum (_accum p - inject_Z (frameDurationMs p)) p)) as (HN & _ & HS).
  cbn [set_accum frameCount loopStartFrame] in HN, HS.
  apply IH in Hrun.
  - rewrite HN, HS in Hrun. done.
  - by rewrite HS.
  - rewrite HN. by apply (frame_in_range_advanceFrame (set_accum _ p)).
Qed.

Lemma frame_in_range_step p p' :
  step p p' →
  (0 ≤ loopStartFrame p)%Z → (0 ≤ currentFrame p < frameCount p)%Z →
  (0 ≤ currentFrame p' < frameCount p')%Z
  ∧ frameCount p' = frameCount p ∧ loopStartFrame p' = loopStartFrame p.
Proof.
  intros [p0|p0|p0|fuel ts p0 p0' Hloop] HL Hc.
  - unfold play. by destruct (_playing p0).
  - done.
  - simpl in *. lia.
  - unfold _loop in Hloop. destruct (negb (_playing p0)); [by injection Hloop as <-|].
    by apply frame_in_range_advance_due in Hloop.
Qed.

(** What the constructor leaves in the fields the clock reads. *)
Lemma new_Return (limit : nat) (cw ch : Q) (data : list byte) (autoPlay : bool)
    (vs : Q) (gl : bool) p :
  new limit cw ch data autoPlay vs gl = Return p →
  currentFrame p = 0%Z ∧ (0 ≤ loopStartFrame p)%Z
  ∧ parseHologlyphHeader (_u8 p) = Return (header p)
  ∧ frameCount p = Header.frameCount (header p).
Proof.
  unfold new.
  destruct (parseHologlyphHeader data) as [tempHeader|]; [|done].
  destruct (if decide _ then _ else _) as [rawData|]; [|done].
  destruct (parseHologlyphHeader rawData) as [hd|] eqn:Hp; [|done].
  intros <-%Return_inj.
  assert (0 ≤ Header.loopStartFrame hd)%Z.
  { apply parse_Return in Hp as (_ & _ & ->). apply getUint32_le_range. }
  unfold play. by destruct autoPlay.
Qed.
End frames.

(** X17. The frame shown after [n] advances, in closed form, for any
    player whose current frame [c] is one of its [N] frames. A looping
    player counts up to the last frame and then cycles through the frames
    from [L = min(loopStartFrame, N - 1)] to the last; it keeps playing.
    A player that does not loop stops on the last frame, and is paused
    from the advance that would have left it. *)
Theorem advanceFrame_iter (p : Player.t) (n : nat) :
  let N := Player.frameCount p in
  let L := Z.min (Player.loopStartFrame p) (N - 1) in
  let c := Player.currentFrame p in
  let q := Nat.iter n Player._advanceFrame p in
  (0 ≤ Player.loopStartFrame p)%Z → (0 ≤ c < N)%Z →
  Player.currentFrame q =
    (if Player.loop p
     then if c + Z.of_nat n <? N then c + Z.of_nat n
          else L + (c + Z.of_nat n - N) mod (N - L)
     else Z.min (c + Z.of_nat n) (N - 1))%Z
  ∧ Player._playing q =
      (if Player.loop p then Player._playing p
       else Player._playing p && (c + Z.of_nat n <? N)%Z).
Proof.
  intros N L c q HL Hc. subst q.
  induction n as [|n [IHc IHp]].
  - cbn [Nat.iter nat_rect]. fold c. rewrite Z.add_0_r.
    destruct (Z.ltb_spec c N); [|lia].
    destruct (Player.loop p); [done|]. rewrite andb_true_r. split; [lia|done].
  - cbn [Nat.iter nat_rect].
    change (nat_rect _ p _ n) with (Nat.iter n Player._advanceFrame p).
    destruct (static_iter_advanceFrame n p) as (HN & Hloop & Hstart).
    set (q := Nat.iter n Player._advanceFrame p) in *.
    unfold Player._advanceFrame. rewrite HN, Hloop, Hstart. fold N L.
    rewrite Nat2Z.inj_succ, <- Z.add_1_r.
    destruct (Player.loop p).
    + rewrite IHc.
      destruct (Z.ltb_spec (c + Z.of_nat n) N) as [Hin|Hout].
      * destruct (Z.ltb_spec (c + Z.of_nat n + 1) N) as [Hin'|Hout'].
        -- destruct (Z.ltb_spec (c + (Z.of_nat n + 1)) N); [|lia].
           split; [simpl; lia|done].
        -- destruct (Z.ltb_spec (c + (Z.of_nat n + 1)) N); [lia|].
           replace (c + (Z.of_nat n + 1) - N)%Z with 0%Z by lia.
           rewrite Z.mod_0_l by lia. split; [simpl; lia|done].
      * destruct (Z.ltb_spec (c + (Z.of_nat n + 1)) N); [lia|].
        replace (c + (Z.of_nat n + 1) - N)%Z with (c + Z.of_nat n - N + 1)%Z by lia.
        rewrite (mod_succ (c + Z.of_nat n - N) (N - L)) by lia.
        destruct (Z.ltb_spec (L + (c + Z.of_nat n - N) mod (N - L) + 1) N) as [Hin'|Hout'].
        -- destruct (Z.ltb_spec ((c + Z.of_nat n - N) mod (N - L) + 1) (N - L)); [|lia].
           split; [simpl; lia|done].
        -- destruct (Z.ltb_spec ((c + Z.of_nat n - N) mod (N - L) + 1) (N - L)); [lia|].
           split; [simpl; lia|done].
    + rewrite IHc.
      destruct (Z.ltb_spec (Z.min (c + Z.of_nat n) (N - 1) + 1) N) as [Hin'|Hout'].
      * cbn [Player.currentFrame Player._playing Player.set_currentFrame].
        rewrite IHp. split; [lia|].
        destruct (Z.ltb_spec (c + Z.of_nat n) N), (Z.ltb_spec (c + (Z.of_nat n + 1)) N);
          try done; lia.
      * cbn [Player.currentFrame Player._playing Player.pause Player.set_playing].
        rewrite ?IHc. split; [lia|].
        destruct (Z.ltb_spec (c + (Z.of_nat n + 1)) N); [lia|]. by rewrite andb_false_r.
Qed.

Lemma advanceFrame_iter_witness :
  let p := Player.Build false 64 64 [] (Header.of_options Options.defaults)
             1 1 1 5 4 28 100 true 2 4 8 1 true 0 0 in
  let N := Player.frameCount p in
  let L := Z.min (Player.loopStartFrame p) (N - 1) in
  let c := Player.currentFrame p in
  let q := Nat.iter 9 Player._advanceFrame p in
  ((0 ≤ Player.loopStartFrame p)%Z ∧ (0 ≤ c < N)%Z)
  ∧ Player.currentFrame q =
      (if Player.loop p
       then if c + Z.of_nat 9 <? N then c + Z.of_nat 9
            else L + (c + Z.of_nat 9 - N) mod (N - L)
       else Z.min (c + Z.of_nat 9) (N - 1))%Z
  ∧ Player._playing q =
      (if Player.loop p then Player._playing p
       else Player._playing p && (c + Z.of_nat 9 <? N)%Z).
Proof.
  intros p N L c q.
  assert (H1 : (0 ≤ Player.loopStartFrame p)%Z) by (by vm_compute).
  assert (H2 : (0 ≤ c < N)%Z) by (by vm_compute).
  split; [exact (conj H1 H2)|]. exact (advanceFrame_iter p 9 H1 H2).
Defined.

(** X18. A player constructed from any file of at least one frame always
    shows one of its frames: after any sequence of [play], [pause],
    [stop] and animation frames that return, at whatever timestamps, the
    current frame is within [0, frameCount - 1], and the frame count is
    still the one read from the header. *)
Theorem frame_index_in_range (limit : nat) (cw ch : Q) (data : list byte)
    (autoPlay : bool) (voxelSize : Q) (useWebGL : bool) (p p' : Player.t) :
  Player.new limit cw ch data autoPlay voxelSize useWebGL = Return p →
  (1 ≤ Player.frameCount p)%Z →
  Player.reachable p p' →
  (0 ≤ Player.currentFrame p' < Player.frameCount p')%Z
  ∧ Player.frameCount p' = Player.frameCount p.
Proof.
  intros Hnew HN Hreach.
  apply new_Return in Hnew as (Hc & HL & _ & _).
  assert (Hinv : (0 ≤ Player.currentFrame p' < Player.frameCount p')%Z
                 ∧ Player.frameCount p' = Player.frameCount p
                 ∧ Player.loopStartFrame p' = Player.loopStartFrame p).
  { induction Hreach as [|p' p'' _ (IHc & IHN & IHL) Hstep].
    - split; [lia|done].
    - apply frame_in_range_step in Hstep as (? & HN' & HL'); [|lia|done].
      split; [done|]. by rewrite HN', HL'. }
  by destruct Hinv as (? & ? & _).
Qed.

Lemma frame_index_in_range_witness :
  let opts := Options.Build 1 1 1 2 100 true 7 4 0 COMPRESSION_TYPE.NONE in
  let data := createHologlyphHeader opts ++ replicate 8 Byte.xff in
  let p := Player.Build false 64 64 data (Header.of_options opts)
             1 1 1 2 4 28 100 true 7 4 8 0 true 0 0 in
  let p' := Player.stop p in
  (Player.new 1024 64 64 data true 8 false = Return p
   ∧ (1 ≤ Player.frameCount p)%Z
   ∧ Player.reachable p p')
  ∧ (0 ≤ Player.currentFrame p' < Player.frameCount p')%Z
  ∧ Player.frameCount p' = Player.frameCount p.
Proof.
  intros opts data p p'.
  assert (H1 : Player.new 1024 64 64 data true 8 false = Return p) by (by vm_compute).
  assert (H2 : (1 ≤ Player.frameCount p)%Z) by (by vm_compute).
  assert (H3 : Player.reachable p p')
    by exact (Player.reachable_step p p p' (Player.reachable_refl p) (Player.step_stop p)).
  split; [exact (conj H1 (conj H2 H3))|].
  exact (frame_index_in_range 1024 64 64 data true 8 false p p' H1 H2 H3).
Defined.

(** ** The player and the file *)

Section player_file.
Import Player.

(** Reading position [j] of [u8.subarray(b, e)], for positions that are
    not negative: the element [b + j] of [u8] when that is before [e],
    nothing otherwise. *)
Lemma subarray_lookup (u8 : list byte) (b e : Z) (j : nat) :
  (0 ≤ b)%Z → (0 ≤ e)%Z →
  subarray u8 b e !! j =
    if decide (b + Z.of_nat j < e)%Z then u8 !! (Z.to_nat b + j) else None.
Proof.
  intros Hb He. unfold subarray. cbv zeta.
  destruct (Z.ltb_spec b 0) as [|_]; [lia|].
  destruct (Z.ltb_spec e 0) as [|_]; [lia|].
  set (len := Z.of_nat (length u8)).
  destruct (decide (j < Z.to_nat (Z.min e len - Z.min b len))) as [Hj|Hj].
  - rewrite lookup_take_lt by done. rewrite lookup_drop.
    case_decide as Hbe; [|lia]. f_equal. lia.
  - rewrite lookup_take_ge by lia.
    case_decide as Hbe; [|done]. symmetry. apply lookup_ge_None_2. lia.
Qed.
End player_file.

(** X19. A player constructed from a compressed file is the player
    constructed from the file that was compressed: same bytes, same
    header, same playback state. This holds for a file built by
    [createHologlyphHeader] without compression whose payload is whole
    voxels and has the size the header declares, the payload being an
    array the host holds (its length is within the host's limit). *)
Theorem new_compressed_file (limit : nat) (opts : Options.t) (payload y : list byte)
    (cw ch : Q) (autoPlay : bool) (voxelSize : Q) (useWebGL : bool) :
  Options.compressionType opts = COMPRESSION_TYPE.NONE →
  length payload mod 4 = 0 →
  Z.of_nat (length payload) =
    (Header.frameSizeBytes (Header.of_options (Options.wrap opts))
     * Header.frameCount (Header.of_options (Options.wrap opts)))%Z →
  length payload ≤ limit →
  value (compressGlyfFile (createHologlyphHeader opts ++ payload)) = Return y →
  Player.new limit cw ch y autoPlay voxelSize useWebGL =
    Player.new limit cw ch (createHologlyphHeader opts ++ payload)
      autoPlay voxelSize useWebGL.
Proof.
  intros Hnone Hmod Hlen Hfit Hy.
  destruct (compressGlyfFile_uncompressed opts payload Hnone Hmod) as (c & Hexp & Hc).
  rewrite Hc in Hy. cbn [value] in Hy. apply Return_inj in Hy as <-.
  pose proof (decompressGlyfFile_rle limit opts c payload Hnone Hexp Hmod Hlen Hfit) as Hd.
  unfold Player.new. rewrite Hd. cbn [value]. rewrite !parse_create.
  rewrite wrap_with_compressionType.
  cbn [Header.compressionType Header.of_options Options.compressionType
       Options.with_compressionType Options.wrap].
  rewrite Hnone.
  change (COMPRESSION_TYPE.RLE mod 256)%Z with COMPRESSION_TYPE.RLE.
  change (COMPRESSION_TYPE.NONE mod 256)%Z with COMPRESSION_TYPE.NONE.
  destruct (decide (COMPRESSION_TYPE.RLE ≠ COMPRESSION_TYPE.NONE)) as [_|Hn];
    [|exfalso; apply Hn; by vm_compute].
  destruct (decide (COMPRESSION_TYPE.NONE ≠ COMPRESSION_TYPE.NONE)) as [|_]; [done|].
  by rewrite ?parse_create.
Qed.

Lemma new_compressed_file_witness :
  let opts := Options.Build 2 1 1 1 100 true 0 4 0 COMPRESSION_TYPE.NONE in
  let payload := [Byte.x07; Byte.xff; Byte.xff; Byte.xff; Byte.x07; Byte.xff; Byte.xff; Byte.xff] in
  let y := createHologlyphHeader (Options.with_compressionType COMPRESSION_TYPE.RLE opts)
           ++ [Byte.x02; Byte.x07; Byte.xff; Byte.xff; Byte.xff] in
  (Options.compressionType opts = COMPRESSION_TYPE.NONE
   ∧ length payload mod 4 = 0
   ∧ Z.of_nat (length payload) =
       (Header.frameSizeBytes (Header.of_options (Options.wrap opts))
        * Header.frameCount (Header.of_options (Options.wrap opts)))%Z
   ∧ length payload ≤ 1024
   ∧ value (compressGlyfFile (createHologlyphHeader opts ++ payload)) = Return y)
  ∧ Player.new 1024 64 64 y true 8 false =
      Player.new 1024 64 64 (createHologlyphHeader opts ++ payload) true 8 false.
Proof.
  intros opts payload y.
  assert (H1 : Options.compressionType opts = COMPRESSION_TYPE.NONE) by reflexivity.
  assert (H2 : length payload mod 4 = 0) by reflexivity.
  assert (H3 : Z.of_nat (length payload) =
               (Header.frameSizeBytes (Header.of_options (Options.wrap opts))
                * Header.frameCount (Header.of_options (Options.wrap opts)))%Z)
    by reflexivity.
  assert (H4 : length payload ≤ 1024) by (simpl; lia).
  assert (H5 : value (compressGlyfFile (createHologlyphHeader opts ++ payload)) = Return y)
    by (by vm_compute).
  split; [exact (conj H1 (conj H2 (conj H3 (conj H4 H5))))|].
  exact (new_compressed_file 1024 opts payload y 64 64 true 8 false H1 H2 H3 H4 H5).
Defined.

(** X20. Where a voxel's colour comes from. The four bytes the renderers
    decode for voxel [index] of the current frame are the bytes of the
    file at [dataOffset + currentFrame * frameSizeBytes
    + index * bytesPerVoxel + j], [j = 0..3], as far as they lie inside
    the frame and inside the file; a byte past the end of the frame or of
    the file is missing (and decodes as 0), never taken from the next
    frame. *)
Theorem voxel_bytes_in_frame (p : Player.t) (index : Z) :
  (0 ≤ Player.dataOffset p)%Z → (0 ≤ Player.currentFrame p)%Z →
  (0 ≤ Player.frameSizeBytes p)%Z → (0 ≤ Player.bytesPerVoxel p)%Z →
  (0 ≤ index)%Z →
  ∃ px : list byte,
    Player.voxel_at p index = HSBAUtil.decodePixel px
    ∧ ∀ j : nat,
        px !! j =
          if decide (j < 4
                     ∧ (index * Player.bytesPerVoxel p + Z.of_nat j
                        < Player.frameSizeBytes p)%Z)
          then Player._u8 p !!
                 Z.to_nat (Player.dataOffset p
                           + Player.currentFrame p * Player.frameSizeBytes p
                           + index * Player.bytesPerVoxel p + Z.of_nat j)
          else None.
Proof.
  intros Hoff Hcur Hfsb Hbpv Hindex.
  eexists. split; [reflexivity|]. intros j.
  assert (0 ≤ index * Player.bytesPerVoxel p)%Z by nia.
  assert (0 ≤ Player.currentFrame p * Player.frameSizeBytes p)%Z by nia.
  rewrite subarray_lookup by lia.
  unfold Player._getFrameBytes. cbv zeta.
  destruct (decide (index * Player.bytesPerVoxel p + Z.of_nat j
                    < index * Player.bytesPerVoxel p + 4)%Z) as [Hj|Hj].
  - rewrite subarray_lookup by lia.
    repeat case_decide; try lia; try done. f_equal. lia.
  - case_decide; [lia|done].
Qed.

Lemma voxel_bytes_in_frame_witness :
  let opts := Options.Build 2 1 1 2 100 true 0 3 0 COMPRESSION_TYPE.NONE in
  let data := createHologlyphHeader opts
              ++ [Byte.x01; Byte.x02; Byte.x03; Byte.x04; Byte.x05; Byte.x06;
                  Byte.x07; Byte.x08; Byte.x09; Byte.x0a; Byte.x0b; Byte.x0c] in
  let p := Player.Build false 64 64 data (Header.of_options opts)
             2 1 1 2 6 28 100 true 0 3 8 0 false 0 0 in
  ((0 ≤ Player.dataOffset p)%Z ∧ (0 ≤ Player.currentFrame p)%Z
   ∧ (0 ≤ Player.frameSizeBytes p)%Z ∧ (0 ≤ Player.bytesPerVoxel p)%Z
   ∧ (0 ≤ 1)%Z)
  ∧ ∃ px : list byte,
      Player.voxel_at p 1 = HSBAUtil.decodePixel px
      ∧ ∀ j : nat,
          px !! j =
            if decide (j < 4
                       ∧ (1 * Player.bytesPerVoxel p + Z.of_nat j
                          < Player.frameSizeBytes p)%Z)
            then Player._u8 p !!
                   Z.to_nat (Player.dataOffset p
                             + Player.currentFrame p * Player.frameSizeBytes p
                             + 1 * Player.bytesPerVoxel p + Z.of_nat j)
            else None.
Proof.
  intros opts data p.
  assert (H1 : (0 ≤ Player.dataOffset p)%Z) by (by vm_compute).
  assert (H2 : (0 ≤ Player.currentFrame p)%Z) by (by vm_compute).
  assert (H3 : (0 ≤ Player.frameSizeBytes p)%Z) by (by vm_compute).
  assert (H4 : (0 ≤ Player.bytesPerVoxel p)%Z) by (by vm_compute).
  assert (H5 : (0 ≤ 1)%Z) by (by vm_compute).
  split; [exact (conj H1 (conj H2 (conj H3 (conj H4 H5))))|].
  exact (voxel_bytes_in_frame p 1 H1 H2 H3 H4 H5).
Defined.

Section ticks.

(** Ticks at timestamps that never go back, in the exact arithmetic of the
    model: the frames advanced and the time kept account for the time
    elapsed. *)
Lemma run_loop_count (timestamps : list Q) (p : Player.t) :
  (0 < Player.frameDurationMs p)%Z →
  Player._playing p = true → Player.loop p = true →
  (0 < Player._lastTs p)%Q →
  (0 <= Player._accum p)%Q → (Player._accum p < inject_Z (Player.frameDurationMs p))%Q →
  Player.nondecreasing (Player._lastTs p) timestamps →
  let d := inject_Z (Player.frameDurationMs p) in
  let t_last := List.last timestamps (Player._lastTs p) in
  ∃ (k : nat) (a' : Q),
    (∀ fuel, k < fuel →
       Player.run_loop fuel timestamps p =
         Some (Player.set_accum a'
                 (Player.set_lastTs t_last (Nat.iter k Player._advanceFrame p))))
    ∧ (0 <= a')%Q ∧ (a' < d)%Q
    ∧ a' + inject_Z (Z.of_nat k) * d == Player._accum p + (t_last - Player._lastTs p).
Proof.
  revert p. induction timestamps as [|ts timestamps IH];
    intros p Hd Hplay Hloop Hpos Hlo Hhi Hmono d t_last.
  { exists 0, (Player._accum p). subst t_last.
    change (inject_Z (Z.of_nat 0)) with 0%Q.
    split_and!; [|done|done|cbn [List.last]; lra].
    intros fuel _. cbn [Player.run_loop List.last Nat.iter nat_rect].
    by rewrite set_accum_set_lastTs_id. }
  destruct Hmono as [Hts Hmono].
  subst t_last. rewrite last_cons_default.
  destruct (loop_count p ts Hd Hplay) as (k1 & a1 & Hrun1 & Ha1 & Hlt1 & Hk1 & Hpos1).
  assert (Hne : Qeq_bool (Player._lastTs p) 0 = false).
  { apply not_true_iff_false. rewrite Qeq_bool_iff. lra. }
  rewrite Hne in Ha1, Hk1, Hpos1. fold d in Ha1, Hlt1, Hk1, Hpos1.
  assert (Hlo1 : (0 <= a1)%Q).
  { destruct (Qlt_le_dec (Player._accum p + (ts - Player._lastTs p)) d) as [Hsmall|Hbig].
    - rewrite (Hk1 Hsmall) in Ha1. change (inject_Z (Z.of_nat 0)) with 0%Q in Ha1. lra.
    - by apply Hpos1. }
  set (p1 := Player.set_accum a1
               (Player.set_lastTs ts (Nat.iter k1 Player._advanceFrame p))) in *.
  assert (Hd1 : Player.frameDurationMs p1 = Player.frameDurationMs p)
    by apply frameDurationMs_iter_advanceFrame.
  destruct (IH p1) as (k2 & a2 & Hrun2 & Hlo2 & Hlt2 & Ha2).
  - by rewrite Hd1.
  - unfold p1. cbn [Player._playing Player.set_accum Player.set_lastTs].
    by rewrite playing_iter_advanceFrame.
  - unfold p1. cbn [Player.loop Player.set_accum Player.set_lastTs].
    by rewrite (proj1 (proj2 (static_iter_advanceFrame k1 p))).
  - unfold p1. cbn [Player._lastTs Player.set_accum Player.set_lastTs]. lra.
  - done.
  - by rewrite Hd1.
  - done.
  - rewrite Hd1 in Hlt2, Ha2. fold d in Hlt2, Ha2.
    cbn [p1 Player._lastTs Player._accum Player.set_accum Player.set_lastTs] in Hrun2, Ha2.
    exists (k2 + k1), a2. split_and!; [|done|done|].
    + intros fuel Hfuel. cbn [Player.run_loop].
      rewrite Hrun1 by lia. fold p1. rewrite Hrun2 by lia.
      unfold p1. rewrite iter_advanceFrame_set_accum, iter_advanceFrame_set_lastTs.
      by rewrite <- Nat.iter_add.
    + rewrite Nat2Z.inj_add, inject_Z_plus. lra.
Qed.

Lemma nondecreasing_Qeq (t t' : Q) (timestamps : list Q) :
  t == t' → Player.nondecreasing t timestamps → Player.nondecreasing t' timestamps.
Proof.
  intros Ht. destruct timestamps as [|t0 timestamps]; [done|].
  intros [Hle Hmono]. split; [by rewrite <- Ht|done].
Qed.

Lemma last_Qeq (t t' : Q) (timestamps : list Q) :
  t == t' → List.last timestamps t == List.last timestamps t'.
Proof.
  intros Ht. destruct timestamps as [|t0 timestamps]; [done|].
  by rewrite !last_cons_default.
Qed.
End ticks.

(** X21. Playback speed does not depend on how often the browser draws,
    at whole-millisecond times. For a playing, looping player with a
    positive frame duration [d] whose [_accum] and [_lastTs] are whole
    numbers [a < d] and [l > 0], ticks at whole timestamps that never go
    back all return, and together they advance exactly as many frames as
    whole durations fit in [a] plus the time from [l] to the last
    timestamp, keeping the remainder, however the ticks are spaced. All
    values being whole numbers below 2^53, the double-precision
    arithmetic of the source is exact. *)
Theorem run_loop_elapsed (timestamps : list Z) (p : Player.t) (a l : Z) :
  (0 < Player.frameDurationMs p)%Z →
  Player._playing p = true → Player.loop p = true →
  Player._accum p == inject_Z a → Player._lastTs p == inject_Z l →
  (0 < l)%Z → (0 ≤ a < Player.frameDurationMs p)%Z →
  Player.nondecreasing (inject_Z l) (inject_Z <$> timestamps) →
  (a + List.last timestamps l < 2 ^ 53)%Z →
  let d := Player.frameDurationMs p in
  let total := (a + (List.last timestamps l - l))%Z in
  let k := Z.to_nat (total / d) in
  ∃ a' : Q,
    a' == inject_Z (total mod d)
    ∧ ∀ fuel, k < fuel →
        Player.run_loop fuel (inject_Z <$> timestamps) p =
          Some (Player.set_accum a'
                  (Player.set_lastTs
                     (List.last (inject_Z <$> timestamps) (Player._lastTs p))
                     (Nat.iter k Player._advanceFrame p))).
Proof.
  intros Hd Hplay Hloop Ha Hl Hl0 Ha0 Hmono _ d total k.
  destruct (run_loop_count (inject_Z <$> timestamps) p) as (k' & a' & Hrun & Hlo & Hhi & Hsum);
    try done.
  - rewrite Hl. change 0%Q with (inject_Z 0). by rewrite <- Zlt_Qlt.
  - rewrite Ha. change 0%Q with (inject_Z 0). rewrite <- Zle_Qle. lia.
  - rewrite Ha, <- Zlt_Qlt. lia.
  - apply (nondecreasing_Qeq (inject_Z l)); [by symmetry|done].
  - rewrite (last_Qeq _ _ _ Hl), last_inject_Z, Ha, Hl in Hsum. fold d in Hsum, Hhi.
    destruct (whole_division a' total d k' Hd) as [-> Hmod]; [|done|done|].
    + rewrite Hsum. unfold total, Z.sub. rewrite !inject_Z_plus, inject_Z_opp. ring.
    + exists a'. split; [done|]. exact Hrun.
Qed.

Lemma run_loop_elapsed_witness :
  let p := Player.Build false 64 64 [] (Header.of_options Options.defaults)
             1 1 1 5 4 28 100 true 2 4 8 0 true 1000 30 in
  let timestamps := [1016; 1033; 1250]%Z in
  ((0 < Player.frameDurationMs p)%Z
   ∧ Player._playing p = true ∧ Player.loop p = true
   ∧ Player._accum p == inject_Z 30 ∧ Player._lastTs p == inject_Z 1000
   ∧ (0 < 1000)%Z ∧ (0 ≤ 30 < Player.frameDurationMs p)%Z
   ∧ Player.nondecreasing (inject_Z 1000) (inject_Z <$> timestamps)
   ∧ (30 + List.last timestamps 1000 < 2 ^ 53)%Z)
  ∧ let d := Player.frameDurationMs p in
    let total := (30 + (List.last timestamps 1000 - 1000))%Z in
    let k := Z.to_nat (total / d) in
    ∃ a' : Q,
      a' == inject_Z (total mod d)
      ∧ ∀ fuel, k < fuel →
          Player.run_loop fuel (inject_Z <$> timestamps) p =
            Some (Player.set_accum a'
                    (Player.set_lastTs
                       (List.last (inject_Z <$> timestamps) (Player._lastTs p))
                       (Nat.iter k Player._advanceFrame p))).
Proof.
  intros p timestamps.
  assert (H1 : (0 < Player.frameDurationMs p)%Z) by reflexivity.
  assert (H2 : Player._playing p = true) by reflexivity.
  assert (H3 : Player.loop p = true) by reflexivity.
  assert (H4 : Player._accum p == inject_Z 30) by reflexivity.
  assert (H5 : Player._lastTs p == inject_Z 1000) by reflexivity.
  assert (H6 : (0 < 1000)%Z) by lia.
  assert (H7 : (0 ≤ 30 < Player.frameDurationMs p)%Z) by (by vm_compute).
  assert (H8 : Player.nondecreasing (inject_Z 1000) (inject_Z <$> timestamps))
    by (by vm_compute).
  assert (H9 : (30 + List.last timestamps 1000 < 2 ^ 53)%Z) by (by vm_compute).
  split; [exact (conj H1 (conj H2 (conj H3 (conj H4 (conj H5 (conj H6 (conj H7 (conj H8 H9))))))))|].
  exact (run_loop_elapsed timestamps p 30 1000 H1 H2 H3 H4 H5 H6 H7 H8 H9).
Defined.
